(** * Letter-tracing game: the tracing surface and the session orchestrator

    A shallow embedding of [components/TracingCard.tsx], [App.tsx],
    [types.ts] and [constants.ts], with the properties of the tracing
    session (stroke index, mistakes, success flag, ink) and of the star
    rating.  The gesture loop of [components/GestureControl.tsx], the
    result modal of [components/ResultModal.tsx] and the audio decoding of
    [services/geminiService.ts] are embedded as well.

    Conventions of the embedding.
    - A JavaScript [number] is a rational ([Q]): arithmetic is exact, and
      rounding, NaN and infinities are left out.  [Math.hypot] and
      [Math.ceil] only occur in comparisons and in a step count, both of
      which are expressed on squared lengths, without square roots.
    - React state ([useState]) is read from the closure of the last render
      and written at the end of a handler; refs ([useRef]) are read and
      written in place.  A handler is a function from the committed state to
      the next committed state; a callback that runs later ([setTimeout])
      takes the render it was created in as an argument.
    - A property access on [undefined] raises [TypeError]: handlers return a
      [result].
    - The pixels of a canvas are the list of the paint operations applied
      since it was last cleared.  [getContext('2d')] always yields a
      context, and handlers run on a mounted component.
    - [isPointInStroke] belongs to the platform: the handlers are
      parameterized by a [Canvas2D]. *)

From Stdlib Require Import QArith Qround ZArith List Bool String Ascii Lia Lqa.
From Stdlib.Strings Require Import Byte.
Import ListNotations.

Local Open Scope Q_scope.

(** ** Numbers *)

(** [a < b] on numbers. *)
Definition Qlt_bool (a b : Q) : bool := negb (Qle_bool b a).

(** [v || d] on numbers: [0] is falsy. *)
Definition num_or (v d : Q) : Q := if Qeq_bool v 0 then d else v.

(** The square of [Math.hypot(dx, dy)]. *)
Definition hypot2 (dx dy : Q) : Q := dx * dx + dy * dy.

(** [Math.hypot(dx, dy) < r]. *)
Definition hypot_lt (dx dy r : Q) : bool :=
  Qlt_bool 0 r && Qlt_bool (hypot2 dx dy) (r * r).

(** The least integer whose square is at least [m]. *)
Definition ceil_sqrt (m : Z) : Z :=
  let s := Z.sqrt m in if (s * s =? m)%Z then s else (s + 1)%Z.

(** [Math.ceil(Math.hypot(dx, dy) / 2)]: the least [n] with
    [hypot2 dx dy <= (2 n)^2]. *)
Definition ceil_half_hypot (dx dy : Q) : nat :=
  Z.to_nat (ceil_sqrt (Qceiling (hypot2 dx dy / 4))).

(** ** types.ts *)

Inductive GameState := INTRO | PLAYING | SUCCESS_ANIMATION | FINISHED.

Inductive DeerState := IDLE | GUITAR | ACCORDION.

Record LevelData := { letter : string; word : string; hint : string }.

Record Point := { x : Q; y : Q }.

Record Stroke := {
  path : string;          (* SVG path data *)
  start : Point;          (* 0-100 coordinate system *)
  stroke_end : Point;     (* [end] in the source *)
  arrowRotation : Q
}.

Record ViewBox := { vb_width : Q; vb_height : Q }.

Record LetterPathConfig := { strokes : list Stroke; viewBox : ViewBox }.

(** ** constants.ts *)

Definition LEVELS : list LevelData :=
  [ {| letter := "A"; word := "Apple"; hint := "Yummy red fruit" |};
    {| letter := "a"; word := "Ant"; hint := "Small insect" |} ].

Definition config_A : LetterPathConfig :=
  {| viewBox := {| vb_width := 100; vb_height := 100 |};
     strokes :=
       [ {| path := "M 50 15 L 20 85";
            start := {| x := 50; y := 15 |};
            stroke_end := {| x := 20; y := 85 |};
            arrowRotation := 115 |};
         {| path := "M 50 15 L 80 85";
            start := {| x := 50; y := 15 |};
            stroke_end := {| x := 80; y := 85 |};
            arrowRotation := 65 |};
         {| path := "M 30 60 L 70 60";
            start := {| x := 30; y := 60 |};
            stroke_end := {| x := 70; y := 60 |};
            arrowRotation := 0 |} ] |}.

Definition config_a : LetterPathConfig :=
  {| viewBox := {| vb_width := 100; vb_height := 100 |};
     strokes :=
       [ {| path := "M 70 45 A 20 20 0 1 0 70 75";
            start := {| x := 70; y := 45 |};
            stroke_end := {| x := 70; y := 75 |};
            arrowRotation := -45 |};
         {| path := "M 70 40 L 70 85";
            start := {| x := 70; y := 40 |};
            stroke_end := {| x := 70; y := 85 |};
            arrowRotation := 90 |} ] |}.

(** [LETTER_PATHS[key]]: [None] is [undefined]. *)
Definition LETTER_PATHS (key : string) : option LetterPathConfig :=
  if String.eqb key "A" then Some config_A
  else if String.eqb key "a" then Some config_a
  else None.

(** ** Errors *)

(** The outcome of a handler: the next state, or the [TypeError] raised by
    reading a property of [undefined]. *)
Inductive result (A : Type) : Type :=
| Ok (a : A)
| TypeError.

Arguments Ok {A} a.
Arguments TypeError {A}.

Definition bind {A B : Type} (r : result A) (k : A -> result B) : result B :=
  match r with
  | Ok a => k a
  | TypeError => TypeError
  end.

Notation "v <- r ;; k" := (bind r (fun v => k))
  (at level 61, r at next level, right associativity).

(** [o.f] where [o] may be [undefined]. *)
Definition defined {A : Type} (o : option A) : result A :=
  match o with
  | Some a => Ok a
  | None => TypeError
  end.

(** ** The platform: the 2D canvas context *)

(** [Path2D] objects and [ctx.isPointInStroke(path, X, Y)], evaluated with
    the transform [scale(sx, sy)] and [ctx.lineWidth = lineWidth]; [X] and
    [Y] are canvas (physical) coordinates. *)
Class Canvas2D : Type := {
  Path2D : Type;
  newPath2D : string -> Path2D;
  isPointInStroke : Path2D -> forall (sx sy lineWidth X Y : Q), bool
}.

(** What the tracing surface expects of the stroke test, for a reading
    [onPath p u v] of "the point [(u, v)] of user space lies on the path
    [p]": a point of the path is in the stroke, and a point of the stroke is
    within half the line width of some point of the path, both measured in
    user space. *)
Section StrokeContract.

Context {C : Canvas2D}.
Variable onPath : Path2D -> Q -> Q -> Prop.

Definition stroke_covers_path : Prop :=
  forall p sx sy lw X Y u v,
    0 < sx -> 0 < sy -> 0 < lw ->
    onPath p u v -> X == u * sx -> Y == v * sy ->
    isPointInStroke p sx sy lw X Y = true.

Definition stroke_near_path : Prop :=
  forall p sx sy lw X Y,
    0 < sx -> 0 < sy -> 0 < lw ->
    isPointInStroke p sx sy lw X Y = true ->
    exists u v, onPath p u v /\
      hypot2 (X / sx - u) (Y / sy - v) <= (lw / 2) * (lw / 2).

End StrokeContract.

(** ** The ink surface and the visible surface *)

Inductive InkOp :=
| FillArc (scale cx cy r : Q)
    (* [arc(cx, cy, r, 0, 2 PI); fill()] under the transform [scale(scale, scale)] *)
| StrokePath (sx sy lineWidth : Q) (d : string).
    (* [stroke(new Path2D(d))] under [scale(sx, sy)] *)

Record InkCanvas := {
  ink_width : Z;
  ink_height : Z;
  ink_scale : Q;            (* the transform of its context *)
  ink_ops : list InkOp
}.

(** [document.createElement('canvas')]. *)
Definition createCanvas : InkCanvas :=
  {| ink_width := 300; ink_height := 150; ink_scale := 1; ink_ops := [] |}.

(** The value read back after [canvas.width = v]: the attribute is an
    [unsigned long], so [v] is truncated and taken modulo [2^32]; a value
    above [2^31 - 1] is replaced by the default [dflt]. *)
Definition canvas_dim (dflt : Z) (v : Q) : Z :=
  let t := if Qle_bool 0 v then Qfloor v else Qceiling v in
  let u := (t mod 4294967296)%Z in
  if (u <=? 2147483647)%Z then u else dflt.

(** [save(); resetTransform(); clearRect(0, 0, width, height); restore()]. *)
Definition clearInk (i : InkCanvas) : InkCanvas :=
  {| ink_width := ink_width i; ink_height := ink_height i;
     ink_scale := ink_scale i; ink_ops := [] |}.

Definition paint (op : list InkOp) (i : InkCanvas) : InkCanvas :=
  {| ink_width := ink_width i; ink_height := ink_height i;
     ink_scale := ink_scale i; ink_ops := ink_ops i ++ op |}.

Inductive DrawOp :=
| Track (d : string)                       (* gray track, line width 16 *)
| DashedGuide (d : string)                 (* dashed guide, line width 2 *)
| StartMarker (at_ : Point) (label : nat)  (* numbered circle *)
| EndArrow (at_ : Point) (rotation : Q)
| InkLayer (ops : list InkOp).             (* [drawImage(ink)] with source-atop *)

(** ** Props, events and state of [TracingCard] *)

Record DOMRect := {
  rect_left : Q; rect_top : Q; rect_width : Q; rect_height : Q
}.

(** What a handler reads from outside the component: the [isActive] prop,
    the layout and the device pixel ratio. *)
Record Env := {
  isActive : bool;
  canvasRect : DOMRect;       (* [canvas.getBoundingClientRect()] *)
  containerRect : DOMRect;    (* [containerRef.current.getBoundingClientRect()] *)
  devicePixelRatio : Q
}.

Record PointerEvent := { clientX : Q; clientY : Q; isTrusted : bool }.

Record Card := {
  (* useState *)
  activeStrokeIdx : nat;
  mistakes : nat;
  successTriggered : bool;
  (* useRef *)
  isDrawingRef : bool;
  lastPosRef : option Point;
  inkCanvasRef : option InkCanvas;
  (* the pixels of the visible canvas *)
  screen : list DrawOp;
  (* the calls of the [onSuccess] prop for the letter, oldest first *)
  onSuccess_calls : list bool
}.

Definition setActiveStrokeIdx (n : nat) (s : Card) : Card :=
  {| activeStrokeIdx := n; mistakes := mistakes s;
     successTriggered := successTriggered s; isDrawingRef := isDrawingRef s;
     lastPosRef := lastPosRef s; inkCanvasRef := inkCanvasRef s;
     screen := screen s; onSuccess_calls := onSuccess_calls s |}.

Definition setMistakes (n : nat) (s : Card) : Card :=
  {| activeStrokeIdx := activeStrokeIdx s; mistakes := n;
     successTriggered := successTriggered s; isDrawingRef := isDrawingRef s;
     lastPosRef := lastPosRef s; inkCanvasRef := inkCanvasRef s;
     screen := screen s; onSuccess_calls := onSuccess_calls s |}.

Definition setSuccessTriggered (b : bool) (s : Card) : Card :=
  {| activeStrokeIdx := activeStrokeIdx s; mistakes := mistakes s;
     successTriggered := b; isDrawingRef := isDrawingRef s;
     lastPosRef := lastPosRef s; inkCanvasRef := inkCanvasRef s;
     screen := screen s; onSuccess_calls := onSuccess_calls s |}.

Definition set_isDrawing (b : bool) (s : Card) : Card :=
  {| activeStrokeIdx := activeStrokeIdx s; mistakes := mistakes s;
     successTriggered := successTriggered s; isDrawingRef := b;
     lastPosRef := lastPosRef s; inkCanvasRef := inkCanvasRef s;
     screen := screen s; onSuccess_calls := onSuccess_calls s |}.

Definition set_lastPos (p : option Point) (s : Card) : Card :=
  {| activeStrokeIdx := activeStrokeIdx s; mistakes := mistakes s;
     successTriggered := successTriggered s; isDrawingRef := isDrawingRef s;
     lastPosRef := p; inkCanvasRef := inkCanvasRef s;
     screen := screen s; onSuccess_calls := onSuccess_calls s |}.

Definition set_inkCanvas (i : option InkCanvas) (s : Card) : Card :=
  {| activeStrokeIdx := activeStrokeIdx s; mistakes := mistakes s;
     successTriggered := successTriggered s; isDrawingRef := isDrawingRef s;
     lastPosRef := lastPosRef s; inkCanvasRef := i;
     screen := screen s; onSuccess_calls := onSuccess_calls s |}.

Definition set_screen (ops : list DrawOp) (s : Card) : Card :=
  {| activeStrokeIdx := activeStrokeIdx s; mistakes := mistakes s;
     successTriggered := successTriggered s; isDrawingRef := isDrawingRef s;
     lastPosRef := lastPosRef s; inkCanvasRef := inkCanvasRef s;
     screen := ops; onSuccess_calls := onSuccess_calls s |}.

(** [onSuccess(b)]. *)
Definition call_onSuccess (b : bool) (s : Card) : Card :=
  {| activeStrokeIdx := activeStrokeIdx s; mistakes := mistakes s;
     successTriggered := successTriggered s; isDrawingRef := isDrawingRef s;
     lastPosRef := lastPosRef s; inkCanvasRef := inkCanvasRef s;
     screen := screen s; onSuccess_calls := onSuccess_calls s ++ [b] |}.

(** The accumulated ink: none before the ink canvas exists. *)
Definition ink (s : Card) : list InkOp :=
  match inkCanvasRef s with
  | Some i => ink_ops i
  | None => []
  end.

(** The state of a freshly mounted component: the initial values of
    [useState] and [useRef]. *)
Definition mount : Card :=
  {| activeStrokeIdx := 0; mistakes := 0; successTriggered := false;
     isDrawingRef := false; lastPosRef := None; inkCanvasRef := None;
     screen := []; onSuccess_calls := [] |}.

(** ** TracingCard.tsx *)

Section TracingCard.

Context {C : Canvas2D}.

(** [letterConfig = LETTER_PATHS[levelData.letter]]; [None] is
    [undefined]. *)
Variable letterConfig : option LetterPathConfig.

(** Converts normalized 0-100 coordinates to canvas pixels. *)
Definition toPx (val size : Q) : Q := (val / 100) * size.

Definition getPoint (p : Point) (w h : Q) : Point :=
  {| x := toPx (x p) w; y := toPx (y p) h |}.

(** *** Rendering *)

(** [renderFrame], in the closure of a render whose [activeStrokeIdx] is
    [idx]: tracks of all strokes, guides of the active stroke, then the
    ink.  It returns at once when there is no letter geometry. *)
Definition renderFrame (idx : nat) (env : Env) (s : Card) : Card :=
  match letterConfig with
  | None => s
  | Some cfg =>
      let w := rect_width (canvasRect env) in
      let h := rect_height (canvasRect env) in
      let tracks := map (fun st => Track (path st)) (strokes cfg) in
      let guides :=
        match nth_error (strokes cfg) idx with
        | Some stroke =>
            [ DashedGuide (path stroke);
              StartMarker (getPoint (start stroke) w h) (idx + 1);
              EndArrow (getPoint (stroke_end stroke) w h)
                       (arrowRotation stroke) ]
        | None => []
        end in
      let inkLayer :=
        match inkCanvasRef s with
        | Some i => [InkLayer (ink_ops i)]
        | None => []
        end in
      set_screen (tracks ++ guides ++ inkLayer) s
  end.

(** *** Initialization *)

(** [initCanvas], run 50 ms after a render that changed [letterConfig] or
    [activeStrokeIdx], and on every window resize.  The component is
    mounted, so [canvasRef] and [containerRef] are set.  Assigning
    [canvas.width] clears the visible canvas; the ink canvas is only
    resized, and so cleared, when one of its dimensions differs from the
    computed one. *)
Definition initCanvas (env : Env) (s : Card) : Card :=
  match letterConfig with
  | None => s
  | Some _ =>
      let width := num_or (rect_width (containerRect env)) 450 in
      let height := num_or (rect_height (containerRect env)) 600 in
      let dpr := num_or (devicePixelRatio env) 1 in
      let s1 := set_screen [] s in
      let inkCanvas :=
        match inkCanvasRef s1 with
        | Some i => i
        | None => createCanvas
        end in
      let inkCanvas' :=
        if negb (Qeq_bool (inject_Z (ink_width inkCanvas)) (width * dpr))
           || negb (Qeq_bool (inject_Z (ink_height inkCanvas)) (height * dpr))
        then {| ink_width := canvas_dim 300 (width * dpr);
                ink_height := canvas_dim 150 (height * dpr);
                ink_scale := dpr;
                ink_ops := [] |}
        else inkCanvas in
      renderFrame (activeStrokeIdx s) env (set_inkCanvas (Some inkCanvas') s1)
  end.

(** Effect 1, run after mounting and after every render in which
    [levelData.letter] changed. *)
Definition resetOnLetterChange (s : Card) : Card :=
  let s1 := setActiveStrokeIdx 0 s in
  let s2 := setSuccessTriggered false s1 in
  let s3 := setMistakes 0 s2 in
  set_inkCanvas (option_map clearInk (inkCanvasRef s3)) s3.

(** *** Stroke and letter completion *)

Definition handleFullSuccess (s : Card) : Card :=
  call_onSuccess (0 <? mistakes s)%nat (setSuccessTriggered true s).

(** [completeStroke]: the just-completed stroke is re-stroked on the ink
    canvas at the track width, then the index advances.  (The pop sound
    is not modelled.) *)
Definition completeStroke (env : Env) (s : Card) : result Card :=
  cfg <- defined letterConfig ;;
  if (List.length (strokes cfg) <=? activeStrokeIdx s)%nat then Ok s
  else
    let s1 := set_lastPos None (set_isDrawing false s) in
    s2 <- match inkCanvasRef s1 with
          | Some inkCanvas =>
              let dpr := num_or (devicePixelRatio env) 1 in
              let w := num_or (rect_width (containerRect env)) 100 in
              let h := num_or (rect_height (containerRect env)) 100 in
              stroke <- defined (nth_error (strokes cfg) (activeStrokeIdx s)) ;;
              Ok (set_inkCanvas
                    (Some (paint [StrokePath ((w * dpr) / 100) ((h * dpr) / 100)
                                             16 (path stroke)] inkCanvas))
                    s1)
          | None => Ok s1
          end ;;
    let nextIdx := (activeStrokeIdx s + 1)%nat in
    let s3 := setActiveStrokeIdx nextIdx s2 in
    if (List.length (strokes cfg) <=? nextIdx)%nat
    then Ok (handleFullSuccess s3)
    else Ok s3.

(** *** User interaction *)

(** Helper for linear interpolation. *)
Definition lerp (a b t : Q) : Q := a * (1 - t) + b * t.

(** [t] at iteration [i] of the interpolation loop. *)
Definition sample_t (steps i : nat) : Q :=
  if (steps =? 0)%nat then 1
  else inject_Z (Z.of_nat i) / inject_Z (Z.of_nat steps).

(** The number of interpolation steps between two raw points. *)
Definition sample_steps (last cur : Point) : nat :=
  ceil_half_hypot (x cur - x last) (y cur - y last).

(** The points visited by the interpolation loop, [i = 0 .. steps]. *)
Definition samples (last cur : Point) : list Point :=
  let steps := sample_steps last cur in
  map (fun i => {| x := lerp (x last) (x cur) (sample_t steps i);
                   y := lerp (y last) (y cur) (sample_t steps i) |})
      (seq 0 (S steps)).

(** The hit test of one sample, given in CSS pixels: the path is scaled
    from the 0-100 space to the physical canvas and stroked with line
    width 24. *)
Definition hitTest (path2d : Path2D) (w h dpr : Q) (p : Point) : bool :=
  isPointInStroke path2d ((w * dpr) / 100) ((h * dpr) / 100) 24
                  (x p * dpr) (y p * dpr).

(** The brush stamp of an accepted sample. *)
Definition stamp (scale w : Q) (p : Point) : InkOp :=
  FillArc scale (x p) (y p) (w * (65 # 1000)).

(** [draw], the pointer-move handler. *)
Definition draw (env : Env) (e : PointerEvent) (s : Card) : result Card :=
  if negb (isDrawingRef s) || negb (isActive env) || successTriggered s
  then Ok s
  else
    match inkCanvasRef s with
    | None => Ok s
    | Some inkCanvas =>
        let dpr := num_or (devicePixelRatio env) 1 in
        let rect := canvasRect env in
        let current := {| x := clientX e - rect_left rect;
                          y := clientY e - rect_top rect |} in
        let w := rect_width rect in
        let h := rect_height rect in
        cfg <- defined letterConfig ;;
        currentStroke <- defined (nth_error (strokes cfg) (activeStrokeIdx s)) ;;
        let path2d := newPath2D (path currentStroke) in
        let last := match lastPosRef s with
                    | Some p => p
                    | None => current
                    end in
        let stamps :=
          map (stamp (ink_scale inkCanvas) w)
              (filter (hitTest path2d w h dpr) (samples last current)) in
        let s1 := set_inkCanvas (Some (paint stamps inkCanvas)) s in
        let s2 := set_lastPos (Some current) s1 in
        let endPt := getPoint (stroke_end currentStroke) w h in
        let s3 := renderFrame (activeStrokeIdx s) env s2 in
        if hypot_lt (x current - x endPt) (y current - y endPt)
                    (w * (8 # 100))
        then completeStroke env s3
        else Ok s3
    end.

(** [startDrawing], the pointer-down handler.  (Pointer capture is not
    modelled.) *)
Definition startDrawing (env : Env) (e : PointerEvent) (s : Card)
  : result Card :=
  if negb (isActive env) || successTriggered s then Ok s
  else
    cfg <- defined letterConfig ;;
    if (List.length (strokes cfg) <=? activeStrokeIdx s)%nat then Ok s
    else
      let rect := canvasRect env in
      let s1 := set_isDrawing true s in
      let s2 := set_lastPos (Some {| x := clientX e - rect_left rect;
                                     y := clientY e - rect_top rect |}) s1 in
      draw env e s2.

(** [stopDrawing], the pointer-up and pointer-leave handler. *)
Definition stopDrawing (e : PointerEvent) (s : Card) : Card :=
  set_lastPos None (set_isDrawing false s).

(** [handleReset]; its [renderFrame] is the one of the render that
    created the handler. *)
Definition handleReset (env : Env) (s : Card) : Card :=
  let s1 := setMistakes (mistakes s + 1) s in
  let s2 := setActiveStrokeIdx 0 s1 in
  let s3 := setSuccessTriggered false s2 in
  let s4 := set_inkCanvas (option_map clearInk (inkCanvasRef s3)) s3 in
  renderFrame (activeStrokeIdx s) env s4.

(** The Reset button: [disabled={!isActive || successTriggered}]. *)
Definition resetDisabled (env : Env) (s : Card) : bool :=
  negb (isActive env) || successTriggered s.

(** The hand-guide overlay of the JSX:
    [!successTriggered && isActive && activeStrokeIdx < letterConfig.strokes.length]. *)
Definition handGuideShown (env : Env) (s : Card) : result bool :=
  if negb (successTriggered s) && isActive env
  then cfg <- defined letterConfig ;;
       Ok (activeStrokeIdx s <? List.length (strokes cfg))%nat
  else Ok false.

(** *** Events *)

Inductive Event :=
| PointerDown (e : PointerEvent)
| PointerMove (e : PointerEvent)
| PointerUp (e : PointerEvent)
| PointerLeave (e : PointerEvent)
| ResetClick
| InitCanvas.          (* the 50 ms timer or a window resize *)

(** One event, dispatched to its handler.  A click on a disabled button
    is not delivered. *)
Definition handle (env : Env) (ev : Event) (s : Card) : result Card :=
  match ev with
  | PointerDown e => startDrawing env e s
  | PointerMove e => draw env e s
  | PointerUp e | PointerLeave e => Ok (stopDrawing e s)
  | ResetClick => if resetDisabled env s then Ok s else Ok (handleReset env s)
  | InitCanvas => Ok (initCanvas env s)
  end.

End TracingCard.

(** ** Sessions of one mounted [TracingCard] *)

Definition set_onSuccess_calls (l : list bool) (s : Card) : Card :=
  {| activeStrokeIdx := activeStrokeIdx s; mistakes := mistakes s;
     successTriggered := successTriggered s; isDrawingRef := isDrawingRef s;
     lastPosRef := lastPosRef s; inkCanvasRef := inkCanvasRef s;
     screen := screen s; onSuccess_calls := l |}.

(** A render with a new [levelData.letter], followed by Effect 1.  The
    record of [onSuccess] calls starts afresh with the letter. *)
Definition letterChanged (s : Card) : Card :=
  set_onSuccess_calls [] (resetOnLetterChange s).

(** The states a mounted component can be in while its letter has the
    geometry [cfg]: it was mounted, Effect 1 ran (after mounting, or
    because the letter changed from one with geometry [cfg0]), or an event
    was handled without error. *)
Inductive reachable {C : Canvas2D} : option LetterPathConfig -> Card -> Prop :=
| reach_mount cfg :
    reachable cfg mount
| reach_letter cfg0 cfg s :
    reachable cfg0 s -> reachable cfg (letterChanged s)
| reach_event cfg env ev s s' :
    reachable cfg s -> handle cfg env ev s = Ok s' -> reachable cfg s'.

(** A pointer move is captured: [draw] passes its guards, and the letter
    has an active stroke. *)
Definition capturing (cfg : LetterPathConfig) (env : Env) (s : Card)
           (inkCanvas : InkCanvas) (stroke : Stroke) : Prop :=
  isDrawingRef s = true /\ isActive env = true /\
  successTriggered s = false /\ inkCanvasRef s = Some inkCanvas /\
  nth_error (strokes cfg) (activeStrokeIdx s) = Some stroke.

(** The raw pointer position of an event, in CSS pixels of the canvas. *)
Definition rawPoint (env : Env) (e : PointerEvent) : Point :=
  {| x := clientX e - rect_left (canvasRect env);
     y := clientY e - rect_top (canvasRect env) |}.

(** The previous raw point of a capture. *)
Definition lastPoint (env : Env) (e : PointerEvent) (s : Card) : Point :=
  match lastPosRef s with
  | Some p => p
  | None => rawPoint env e
  end.

(** The physical dimensions [initCanvas] computes. *)
Definition physicalWidth (env : Env) : Q :=
  num_or (rect_width (containerRect env)) 450 * num_or (devicePixelRatio env) 1.

Definition physicalHeight (env : Env) : Q :=
  num_or (rect_height (containerRect env)) 600 * num_or (devicePixelRatio env) 1.

(** The re-stroke [completeStroke] paints for [stroke]. *)
Definition snapStroke (env : Env) (stroke : Stroke) : InkOp :=
  StrokePath
    ((num_or (rect_width (containerRect env)) 100
      * num_or (devicePixelRatio env) 1) / 100)
    ((num_or (rect_height (containerRect env)) 100
      * num_or (devicePixelRatio env) 1) / 100)
    16 (path stroke).

(** The samples of a captured move that pass the hit test against the path
    of [stroke]. *)
Definition accepted {C : Canvas2D} (env : Env) (e : PointerEvent) (s : Card)
           (stroke : Stroke) : list Point :=
  filter (hitTest (newPath2D (path stroke))
                  (rect_width (canvasRect env)) (rect_height (canvasRect env))
                  (num_or (devicePixelRatio env) 1))
         (samples (lastPoint env e s) (rawPoint env e)).

(** The state [draw] reaches before it looks at the end point: the accepted
    samples are stamped, the raw point is remembered, the frame is
    rendered. *)
Definition inked {C : Canvas2D} (cfg : LetterPathConfig) (env : Env)
           (e : PointerEvent) (s : Card) (inkCanvas : InkCanvas)
           (stroke : Stroke) : Card :=
  let stamps := map (stamp (ink_scale inkCanvas) (rect_width (canvasRect env)))
                    (accepted env e s stroke) in
  renderFrame (Some cfg) (activeStrokeIdx s) env
    (set_lastPos (Some (rawPoint env e))
       (set_inkCanvas (Some (paint stamps inkCanvas)) s)).

(** [Math.hypot(current - endPt) < w * 0.08] in [draw]. *)
Definition nearEnd (env : Env) (e : PointerEvent) (stroke : Stroke) : bool :=
  let w := rect_width (canvasRect env) in
  let h := rect_height (canvasRect env) in
  hypot_lt (x (rawPoint env e) - x (getPoint (stroke_end stroke) w h))
           (y (rawPoint env e) - y (getPoint (stroke_end stroke) w h))
           (w * (8 # 100)).

(** Equality of points as numbers. *)
Definition point_eq (p q : Point) : Prop := x p == x q /\ y p == y q.

(** ** App.tsx *)

Record App := {
  gameState : GameState;
  currentLevelIdx : nat;
  deerState : DeerState;
  stars : nat;
  penalties : nat
}.

(** The initial values of [useState]. *)
Definition App_init : App :=
  {| gameState := INTRO; currentLevelIdx := 0; deerState := IDLE;
     stars := 3; penalties := 0 |}.

Definition setGameState (g : GameState) (a : App) : App :=
  {| gameState := g; currentLevelIdx := currentLevelIdx a;
     deerState := deerState a; stars := stars a; penalties := penalties a |}.

Definition setCurrentLevelIdx (n : nat) (a : App) : App :=
  {| gameState := gameState a; currentLevelIdx := n;
     deerState := deerState a; stars := stars a; penalties := penalties a |}.

Definition setDeerState (d : DeerState) (a : App) : App :=
  {| gameState := gameState a; currentLevelIdx := currentLevelIdx a;
     deerState := d; stars := stars a; penalties := penalties a |}.

Definition setStars (n : nat) (a : App) : App :=
  {| gameState := gameState a; currentLevelIdx := currentLevelIdx a;
     deerState := deerState a; stars := n; penalties := penalties a |}.

Definition setPenalties (n : nat) (a : App) : App :=
  {| gameState := gameState a; currentLevelIdx := currentLevelIdx a;
     deerState := deerState a; stars := stars a; penalties := n |}.

Definition handleStartGame (a : App) : App := setGameState PLAYING a.

(** The rating computed by [finishGame] from its [penalties]. *)
Definition finalStars (penalties : nat) : nat :=
  let finalStars := 3%nat in
  let finalStars := if (1 <=? penalties)%nat then 2%nat else finalStars in
  let finalStars := if (3 <=? penalties)%nat then 1%nat else finalStars in
  if (5 <? penalties)%nat then 0%nat else finalStars.

(** [finishGame] of the render [render]: [penalties] is the constant of
    that render, the setters act on the current state [a]. *)
Definition finishGame (render a : App) : App :=
  setGameState FINISHED (setStars (finalStars (penalties render)) a).

(** [handleLevelSuccess(hadPenalty)] up to its [await].  [coin] is
    [Math.random() > 0.5]. *)
Definition handleLevelSuccess (coin hadPenalty : bool) (a : App) : App :=
  let a1 := if hadPenalty then setPenalties (penalties a + 1) a else a in
  let a2 := setGameState SUCCESS_ANIMATION a1 in
  let nextDeerAnim :=
    if (currentLevelIdx a =? 0)%nat then GUITAR
    else if (currentLevelIdx a =? 1)%nat then ACCORDION
    else if coin then GUITAR else ACCORDION in
  setDeerState nextDeerAnim a2.

(** The callback [handleLevelSuccess] hands to [setTimeout(..., 3000)].
    It was created in the render [render], whose [currentLevelIdx],
    [penalties] and [finishGame] it sees; it runs on the current state. *)
Definition levelTimeout (render a : App) : App :=
  let a1 := setDeerState IDLE a in
  if (currentLevelIdx render <? List.length LEVELS - 1)%nat
  then setGameState PLAYING (setCurrentLevelIdx (currentLevelIdx a1 + 1) a1)
  else finishGame render a1.

Definition restartGame (a : App) : App :=
  setGameState PLAYING
    (setDeerState IDLE
       (setPenalties 0 (setStars 3 (setCurrentLevelIdx 0 a)))).

(** One level played to its end from the render [a]: the card calls
    [onSuccess(hadPenalty)], which is [handleLevelSuccess] of that render,
    and the timeout it sets runs three seconds later. *)
Definition playLevel (hadPenalty : bool) (a : App) : App :=
  levelTimeout a (handleLevelSuccess false hadPenalty a).

(** A whole session: start, then one [onSuccess] report per level. *)
Definition playSession (reports : list bool) : App :=
  fold_left (fun a hadPenalty => playLevel hadPenalty a) reports
            (handleStartGame App_init).

(** The number of levels that reported a penalty. *)
Definition penaltyCount (reports : list bool) : nat :=
  List.length (filter (fun b => b) reports).

(** ** A canvas for straight strokes

    An exact-arithmetic 2D context for paths of the form [M a b L c d],
    the shape of four of the five strokes of [LETTER_PATHS]: the stroke of a
    segment with butt caps is the rectangle of the points whose projection
    falls on the segment and whose distance to its line is at most half the
    line width.  It serves to run the handlers on concrete events. *)

Record Segment := { seg_from : Point; seg_to : Point }.

Definition digit_of (c : ascii) : option nat :=
  let n := nat_of_ascii c in
  if ((48 <=? n) && (n <=? 57))%nat then Some (n - 48)%nat else None.

Fixpoint parse_digits (s : string) (acc : nat) : option nat :=
  match s with
  | EmptyString => Some acc
  | String c r =>
      match digit_of c with
      | Some d => parse_digits r (10 * acc + d)%nat
      | None => None
      end
  end.

Definition parse_number (s : string) : option Q :=
  match s with
  | EmptyString => None
  | _ => option_map (fun n => inject_Z (Z.of_nat n)) (parse_digits s 0)
  end.

(** The words of [s], separated by single spaces; [cur] is the word being
    read, reversed. *)
Fixpoint words_from (s : string) (cur : string) : list string :=
  match s with
  | EmptyString => [cur]
  | String c r =>
      if Ascii.eqb c " "%char then cur :: words_from r EmptyString
      else words_from r (cur ++ String c EmptyString)%string
  end.

Definition parse_segment (d : string) : option Segment :=
  match words_from d EmptyString with
  | [m; a; b; l; c; e] =>
      if String.eqb m "M" && String.eqb l "L" then
        match parse_number a, parse_number b, parse_number c, parse_number e with
        | Some a', Some b', Some c', Some e' =>
            Some {| seg_from := {| x := a'; y := b' |};
                    seg_to := {| x := c'; y := e' |} |}
        | _, _, _, _ => None
        end
      else None
  | _ => None
  end.

(** Along-the-segment and across-the-segment components of the vector from
    the start of the segment to [(u, v)], both scaled by the length of the
    segment, and the squared length. *)
Definition seg_dot (g : Segment) (u v : Q) : Q :=
  (u - x (seg_from g)) * (x (seg_to g) - x (seg_from g))
  + (v - y (seg_from g)) * (y (seg_to g) - y (seg_from g)).

Definition seg_cross (g : Segment) (u v : Q) : Q :=
  (u - x (seg_from g)) * (y (seg_to g) - y (seg_from g))
  - (v - y (seg_from g)) * (x (seg_to g) - x (seg_from g)).

Definition seg_len2 (g : Segment) : Q :=
  hypot2 (x (seg_to g) - x (seg_from g)) (y (seg_to g) - y (seg_from g)).

Definition seg_in_stroke (p : option Segment) (sx sy lineWidth X Y : Q) : bool :=
  match p with
  | None => false
  | Some g =>
      let u := X / sx in
      let v := Y / sy in
      Qlt_bool 0 (seg_len2 g)
      && Qle_bool 0 (seg_dot g u v)
      && Qle_bool (seg_dot g u v) (seg_len2 g)
      && Qle_bool (seg_cross g u v * seg_cross g u v)
                  ((lineWidth / 2) * (lineWidth / 2) * seg_len2 g)
  end.

#[export] Instance SegmentCanvas : Canvas2D :=
  {| Path2D := option Segment;
     newPath2D := parse_segment;
     isPointInStroke := seg_in_stroke |}.

(** The points of a segment of positive length. *)
Definition seg_onPath (p : option Segment) (u v : Q) : Prop :=
  match p with
  | None => False
  | Some g =>
      0 < seg_len2 g /\
      exists t, 0 <= t /\ t <= 1 /\
        u == x (seg_from g) + t * (x (seg_to g) - x (seg_from g)) /\
        v == y (seg_from g) + t * (y (seg_to g) - y (seg_from g))
  end.

(** A 450 x 450 surface at the origin of the page, device pixel ratio 2. *)
Definition env450 : Env :=
  {| isActive := true;
     canvasRect := {| rect_left := 0; rect_top := 0;
                      rect_width := 450; rect_height := 450 |};
     containerRect := {| rect_left := 0; rect_top := 0;
                         rect_width := 450; rect_height := 450 |};
     devicePixelRatio := 2 |}.

Definition pointerAt (cx cy : Q) : PointerEvent :=
  {| clientX := cx; clientY := cy; isTrusted := true |}.

(** Runs a list of events, stopping at the first error. *)
Fixpoint run {C : Canvas2D} (cfg : option LetterPathConfig) (env : Env)
         (evs : list Event) (s : Card) : result Card :=
  match evs with
  | [] => Ok s
  | ev :: evs' => s' <- handle cfg env ev s ;; run cfg env evs' s'
  end.

(** ** Traced sessions

    Pointer events on the 450 x 450 surface for the three strokes of the
    letter A: each is a pointer-down on the start point, a pointer-move to
    the end point and a pointer-up. *)

Definition stroke1_events : list Event :=
  [ PointerDown (pointerAt 225 (135 # 2));
    PointerMove (pointerAt 90 (765 # 2));
    PointerUp (pointerAt 90 (765 # 2)) ].

Definition stroke2_events : list Event :=
  [ PointerDown (pointerAt 225 (135 # 2));
    PointerMove (pointerAt 360 (765 # 2));
    PointerUp (pointerAt 360 (765 # 2)) ].

Definition stroke3_events : list Event :=
  [ PointerDown (pointerAt 135 270);
    PointerMove (pointerAt 315 270);
    PointerUp (pointerAt 315 270) ].

(** The state of a tracing surface for the letter A, mounted on the surface
    [env450] with the canvas for straight strokes, after the events [evs]. *)
Definition after (evs : list Event) : Card :=
  match run (LETTER_PATHS "A") env450 evs mount with
  | Ok s => s
  | TypeError => mount
  end.

(** The ink canvas of a state, once it exists. *)
Definition inkCanvasOf (s : Card) : InkCanvas :=
  match inkCanvasRef s with
  | Some i => i
  | None => createCanvas
  end.

(** The first stroke of the letter A. *)
Definition stroke_A1 : Stroke :=
  {| path := "M 50 15 L 20 85";
     start := {| x := 50; y := 15 |};
     stroke_end := {| x := 20; y := 85 |};
     arrowRotation := 115 |}.

(** The surface [env450] on a display of device pixel ratio 3. *)
Definition env450_dpr3 : Env :=
  {| isActive := true;
     canvasRect := canvasRect env450;
     containerRect := containerRect env450;
     devicePixelRatio := 3 |}.

(** The surface [env450] on a display of device pixel ratio 1.25, where
    the physical size 562.5 is not an integer. *)
Definition env450_dpr125 : Env :=
  {| isActive := true;
     canvasRect := canvasRect env450;
     containerRect := containerRect env450;
     devicePixelRatio := 5 # 4 |}.

(** ** The application: [App] and its mounted [TracingCard] *)

(** The [App] state, the closures of the pending level timeouts (the render
    each was created in, oldest first), and the mounted [TracingCard] with
    its key. *)
Record World := {
  app : App;
  timers : list App;
  surface : option (string * Card)
}.

Definition World_init : World :=
  {| app := App_init; timers := []; surface := None |}.

Definition GameState_eqb (g h : GameState) : bool :=
  match g, h with
  | INTRO, INTRO | PLAYING, PLAYING
  | SUCCESS_ANIMATION, SUCCESS_ANIMATION | FINISHED, FINISHED => true
  | _, _ => false
  end.

(** [currentLevel = LEVELS[currentLevelIdx]]. *)
Definition currentLevel (a : App) : option LevelData :=
  nth_error LEVELS (currentLevelIdx a).

(** The [TracingCard] element of a render of [App]: none on the intro
    screen, otherwise one with [key={currentLevel.letter}].  React keeps the
    mounted component when the key is unchanged and mounts a fresh one, on
    which Effect 1 runs, when it is not. *)
Definition renderApp (a : App) (prev : option (string * Card))
  : result (option (string * Card)) :=
  if GameState_eqb (gameState a) INTRO then Ok None
  else
    level <- defined (currentLevel a) ;;
    match prev with
    | Some (k, s) =>
        if String.eqb k (letter level) then Ok (Some (k, s))
        else Ok (Some (letter level, resetOnLetterChange mount))
    | None => Ok (Some (letter level, resetOnLetterChange mount))
    end.

(** The props [App] passes: [isActive={gameState === GameState.PLAYING}]. *)
Definition cardEnv (a : App) (env : Env) : Env :=
  {| isActive := GameState_eqb (gameState a) PLAYING;
     canvasRect := canvasRect env;
     containerRect := containerRect env;
     devicePixelRatio := devicePixelRatio env |}.

(** The calls of [onSuccess] made between two states of the card. *)
Definition newCalls (s s' : Card) : list bool :=
  skipn (List.length (onSuccess_calls s)) (onSuccess_calls s').

Inductive WorldEvent :=
| StartClick                                  (* the Start Game button *)
| CardEvent (env : Env) (ev : Event) (coin : bool)
| TimeoutFires                                (* the oldest level timeout *)
| RestartClick.                               (* Play Again of the result modal *)

(** One step of the application.  A button that is not shown cannot be
    clicked.  An event of the card runs its handler; each [onSuccess] call
    runs [handleLevelSuccess] of the current render, which leaves a timeout
    behind; then [App] renders. *)
Definition worldStep {C : Canvas2D} (ev : WorldEvent) (w : World) : result World :=
  match ev with
  | StartClick =>
      if GameState_eqb (gameState (app w)) INTRO then
        let a := handleStartGame (app w) in
        sf <- renderApp a (surface w) ;;
        Ok {| app := a; timers := timers w; surface := sf |}
      else Ok w
  | CardEvent env ev coin =>
      match surface w with
      | None => Ok w
      | Some (k, s) =>
          s' <- handle (LETTER_PATHS k) (cardEnv (app w) env) ev s ;;
          let calls := newCalls s s' in
          let a := fold_left (fun a b => handleLevelSuccess coin b a) calls (app w) in
          let ts := timers w ++ map (fun _ => app w) calls in
          sf <- renderApp a (Some (k, s')) ;;
          Ok {| app := a; timers := ts; surface := sf |}
      end
  | TimeoutFires =>
      match timers w with
      | [] => Ok w
      | render :: ts =>
          let a := levelTimeout render (app w) in
          sf <- renderApp a (surface w) ;;
          Ok {| app := a; timers := ts; surface := sf |}
      end
  | RestartClick =>
      if GameState_eqb (gameState (app w)) FINISHED then
        let a := restartGame (app w) in
        sf <- renderApp a (surface w) ;;
        Ok {| app := a; timers := timers w; surface := sf |}
      else Ok w
  end.

Inductive worldReachable {C : Canvas2D} : World -> Prop :=
| wreach_init : worldReachable World_init
| wreach_step ev w w' :
    worldReachable w -> worldStep ev w = Ok w' -> worldReachable w'.

Fixpoint runWorld {C : Canvas2D} (evs : list WorldEvent) (w : World) : result World :=
  match evs with
  | [] => Ok w
  | ev :: evs' => w' <- worldStep ev w ;; runWorld evs' w'
  end.

(** Events of the card on the surface [env450]. *)
Definition onCard (evs : list Event) : list WorldEvent :=
  map (fun ev => CardEvent env450 ev false) evs.

(** Pointer events for the two strokes of the letter a. *)
Definition a_stroke1_events : list Event :=
  [ PointerDown (pointerAt 315 (405 # 2));
    PointerMove (pointerAt 315 (675 # 2));
    PointerUp (pointerAt 315 (675 # 2)) ].

Definition a_stroke2_events : list Event :=
  [ PointerDown (pointerAt 315 180);
    PointerMove (pointerAt 315 (765 # 2));
    PointerUp (pointerAt 315 (765 # 2)) ].

(** A whole game: the letter A traced without a reset, then the letter a
    traced with a reset after its first stroke. *)
Definition session_clean_then_reset : list WorldEvent :=
  [StartClick]
  ++ onCard (InitCanvas :: stroke1_events ++ stroke2_events ++ stroke3_events)
  ++ [TimeoutFires]
  ++ onCard (InitCanvas :: a_stroke1_events ++ [ResetClick]
                       ++ a_stroke1_events ++ a_stroke2_events)
  ++ [TimeoutFires].


(** What holds of every reachable state of the application. *)
Definition world_invariant (w : World) : Prop :=
  (currentLevelIdx (app w) < List.length LEVELS)%nat /\
  (timers w = [] \/
   (gameState (app w) = SUCCESS_ANIMATION /\
    exists render, timers w = [render] /\
                   currentLevelIdx render = currentLevelIdx (app w))) /\
  (gameState (app w) = FINISHED ->
   currentLevelIdx (app w) = (List.length LEVELS - 1)%nat) /\
  (gameState (app w) = INTRO -> surface w = None) /\
  (gameState (app w) <> INTRO ->
   exists level s, currentLevel (app w) = Some level /\
                   surface w = Some (letter level, s)).

(** The three ways a handled event [ev] takes the session from [s] to [s']
    when the letter has the geometry [cfg]: it leaves the React state alone,
    it completes the active stroke, or it is a reset. *)
Inductive transition (cfg : LetterPathConfig) (env : Env) (ev : Event)
          (s s' : Card) : Prop :=
| tr_quiet :
    activeStrokeIdx s' = activeStrokeIdx s ->
    mistakes s' = mistakes s ->
    successTriggered s' = successTriggered s ->
    onSuccess_calls s' = onSuccess_calls s ->
    transition cfg env ev s s'
| tr_complete :
    (exists e, ev = PointerDown e \/ ev = PointerMove e) ->
    isActive env = true ->
    successTriggered s = false ->
    (activeStrokeIdx s < List.length (strokes cfg))%nat ->
    activeStrokeIdx s' = (activeStrokeIdx s + 1)%nat ->
    mistakes s' = mistakes s ->
    isDrawingRef s' = false ->
    successTriggered s' =
      (List.length (strokes cfg) <=? activeStrokeIdx s + 1)%nat ->
    onSuccess_calls s' =
      onSuccess_calls s ++
      (if (List.length (strokes cfg) <=? activeStrokeIdx s + 1)%nat
       then [(0 <? mistakes s)%nat] else []) ->
    transition cfg env ev s s'
| tr_reset :
    ev = ResetClick ->
    isActive env = true ->
    successTriggered s = false ->
    s' = handleReset (Some cfg) env s ->
    transition cfg env ev s s'.

(** What holds of every reachable state of a letter with geometry [cfg]. *)
Definition session_invariant (cfg : LetterPathConfig) (s : Card) : Prop :=
  (activeStrokeIdx s <= List.length (strokes cfg))%nat /\
  onSuccess_calls s =
    (if successTriggered s then [(0 <? mistakes s)%nat] else []) /\
  (successTriggered s = true ->
   activeStrokeIdx s = List.length (strokes cfg)) /\
  (successTriggered s = false -> strokes cfg <> [] ->
   (activeStrokeIdx s < List.length (strokes cfg))%nat).

(** A capture only runs while a stroke remains. *)
Definition capture_invariant (cfg : LetterPathConfig) (s : Card) : Prop :=
  isDrawingRef s = true ->
  (activeStrokeIdx s < List.length (strokes cfg))%nat.

(** ** Further notions of the tracing surface *)

(** A pointer-down on the end point of [stroke]. *)
Definition tapAtEnd (env : Env) (stroke : Stroke) : Event :=
  PointerDown
    {| clientX := rect_left (canvasRect env)
                  + toPx (x (stroke_end stroke)) (rect_width (canvasRect env));
       clientY := rect_top (canvasRect env)
                  + toPx (y (stroke_end stroke)) (rect_height (canvasRect env));
       isTrusted := true |}.

(** The pointer events. *)
Definition isPointerEvent (ev : Event) : bool :=
  match ev with
  | PointerDown _ | PointerMove _ | PointerUp _ | PointerLeave _ => true
  | ResetClick | InitCanvas => false
  end.

(** The events an inactive surface can still receive from the pointer and
    the Reset button, other than the end of a capture. *)
Definition isGatedEvent (ev : Event) : bool :=
  match ev with
  | PointerDown _ | PointerMove _ | ResetClick => true
  | PointerUp _ | PointerLeave _ | InitCanvas => false
  end.

(** The size and transform of the ink canvas. *)
Definition inkGeometry (s : Card) : option (Z * Z * Q) :=
  option_map (fun i => (ink_width i, ink_height i, ink_scale i)) (inkCanvasRef s).

(** The ink canvas exists and has the physical size [initCanvas] computes
    for the layout [env]. *)
Definition inkFits (env : Env) (s : Card) : Prop :=
  exists i, inkCanvasRef s = Some i /\
            inject_Z (ink_width i) == physicalWidth env /\
            inject_Z (ink_height i) == physicalHeight env.

(** The physical size of the layout is a whole number of pixels, within the
    range of a canvas dimension. *)
Definition wholePixels (env : Env) : Prop :=
  exists zw zh : Z,
    physicalWidth env == inject_Z zw /\ physicalHeight env == inject_Z zh /\
    (0 <= zw <= 2147483647)%Z /\ (0 <= zh <= 2147483647)%Z.

(** ** ResultModal.tsx *)

(** Which of the three stars are lit: star [i] is lit when [i <= stars]. *)
Definition litStars (stars : nat) : list bool :=
  map (fun i => (i <=? stars)%nat) [1; 2; 3]%nat.

Definition resultMessage (stars : nat) : string :=
  if (stars =? 3)%nat then "Amazing Job!"
  else if (stars =? 2)%nat then "Great Work!"
  else "Keep Practicing!".

(** ** Further notions of the application *)

(** What the score of a reachable state of the application satisfies. *)
Definition score_invariant (w : World) : Prop :=
  (penalties (app w)
   <= currentLevelIdx (app w)
      + match gameState (app w) with
        | SUCCESS_ANIMATION | FINISHED => 1
        | _ => 0
        end)%nat /\
  Forall (fun render => (penalties render <= currentLevelIdx render)%nat)
         (timers w) /\
  (gameState (app w) <> FINISHED -> stars (app w) = 3%nat) /\
  (gameState (app w) = FINISHED -> (2 <= stars (app w) <= 3)%nat).

(** The edge of the game's state machine taken by a step from the
    application state [a] to [a']. *)
Definition gameEdge (ev : WorldEvent) (a a' : App) : Prop :=
  match gameState a, gameState a' with
  | INTRO, PLAYING =>
      ev = StartClick /\ currentLevelIdx a' = currentLevelIdx a
  | PLAYING, SUCCESS_ANIMATION =>
      (exists env e coin, ev = CardEvent env e coin) /\
      currentLevelIdx a' = currentLevelIdx a
  | SUCCESS_ANIMATION, PLAYING =>
      ev = TimeoutFires /\ currentLevelIdx a' = (currentLevelIdx a + 1)%nat
  | SUCCESS_ANIMATION, FINISHED =>
      ev = TimeoutFires /\ currentLevelIdx a' = currentLevelIdx a /\
      currentLevelIdx a = (List.length LEVELS - 1)%nat
  | FINISHED, PLAYING =>
      ev = RestartClick /\ currentLevelIdx a' = 0%nat
  | g, g' => g = g' /\ a' = a
  end.

(** The state of the application after the events [evs] from its initial
    state. *)
Definition worldAfter {C : Canvas2D} (evs : list WorldEvent) : World :=
  match runWorld evs World_init with
  | Ok w => w
  | TypeError => World_init
  end.

(** What the animation of the deer satisfies in a reachable state. *)
Definition deer_invariant (a : App) : Prop :=
  match gameState a with
  | SUCCESS_ANIMATION =>
      deerState a = (if (currentLevelIdx a =? 0)%nat then GUITAR else ACCORDION)
  | _ => deerState a = IDLE
  end.

(** ** GestureControl.tsx *)

(** Must pinch tighter (0.05) to start, but can relax to (0.09) before
    stopping. *)
Definition PINCH_START_THRESHOLD : Q := 5 # 100.
Definition PINCH_STOP_THRESHOLD : Q := 9 # 100.

(** Lower factor = more smoothing. *)
Definition SMOOTHING_FACTOR : Q := 12 # 100.

(** [Math.hypot(dx, dy) > r], that is [Math.sqrt(dx * dx + dy * dy) > r]. *)
Definition hypot_gt (dx dy r : Q) : bool :=
  Qlt_bool r 0 || Qlt_bool (r * r) (hypot2 dx dy).

(** The cursor state rendered as visual feedback. *)
Record Cursor := {
  cursor_x : Q; cursor_y : Q; cursor_isPinching : bool; cursor_visible : bool
}.

(** The state of the component: the [cursor] state and the two refs of the
    logic loop. *)
Record Gesture := {
  cursor : Cursor;
  lastCursorPos : Point;
  wasPinching : bool
}.

(** The initial values of [useState] and [useRef]. *)
Definition Gesture_init : Gesture :=
  {| cursor := {| cursor_x := 0; cursor_y := 0;
                  cursor_isPinching := false; cursor_visible := false |};
     lastCursorPos := {| x := 0; y := 0 |};
     wasPinching := false |}.

(** What one detection frame reads: the index finger tip and the thumb tip
    of the first hand, if a hand was detected, the size of the window, and
    whether [document.elementFromPoint] finds an element at a point. *)
Record Frame := {
  landmarks : option (Point * Point);     (* (landmarks[8], landmarks[4]) *)
  innerWidth : Q;
  innerHeight : Q;
  elementFromPoint : Q -> Q -> bool
}.

Inductive PointerEventType := pointerdown | pointermove | pointerup.

(** A dispatched synthetic event. *)
Record SyntheticEvent := {
  ev_type : PointerEventType;
  ev_clientX : Q;
  ev_clientY : Q;
  ev_buttons : nat;
  ev_pressure : nat
}.

(** [dispatchPointerEvent(x, y, isPinching)] with [wasPinching.current =
    was]: the dispatched event, if an element is under the cursor, and the
    new value of [wasPinching.current]. *)
Definition dispatchPointerEvent (f : Frame) (cx cy : Q) (isPinching was : bool)
  : option SyntheticEvent * bool :=
  if negb (elementFromPoint f cx cy) then (None, was)
  else
    let pressure := if isPinching then 1%nat else 0%nat in
    let ev :=
      if isPinching && negb was then
        {| ev_type := pointerdown; ev_clientX := cx; ev_clientY := cy;
           ev_buttons := 1; ev_pressure := pressure |}
      else if isPinching && was then
        {| ev_type := pointermove; ev_clientX := cx; ev_clientY := cy;
           ev_buttons := 1; ev_pressure := pressure |}
      else if negb isPinching && was then
        {| ev_type := pointerup; ev_clientX := cx; ev_clientY := cy;
           ev_buttons := 0; ev_pressure := pressure |}
      else
        {| ev_type := pointermove; ev_clientX := cx; ev_clientY := cy;
           ev_buttons := 0; ev_pressure := pressure |} in
    (Some ev, isPinching).

(** The smoothed cursor position, with its dead zone. *)
Definition smoothCursor (last raw : Point) : Point :=
  let smoothX := x last + (x raw - x last) * SMOOTHING_FACTOR in
  let smoothY := y last + (y raw - y last) * SMOOTHING_FACTOR in
  let still := hypot_lt (smoothX - x last) (smoothY - y last) 1 in
  {| x := if still then x last else smoothX;
     y := if still then y last else smoothY |}.

(** The raw cursor position of a finger tip, mirrored in X. *)
Definition rawCursor (f : Frame) (indexTip : Point) : Point :=
  {| x := (1 - x indexTip) * innerWidth f; y := y indexTip * innerHeight f |}.

(** Pinch detection with hysteresis. *)
Definition detectPinch (was : bool) (indexTip thumbTip : Point) : bool :=
  let dx := x indexTip - x thumbTip in
  let dy := y indexTip - y thumbTip in
  if was then
    if hypot_gt dx dy PINCH_STOP_THRESHOLD then false else was
  else
    if hypot_lt dx dy PINCH_START_THRESHOLD then true else was.

(** [predict], one detection frame: the next state and the dispatched
    event. *)
Definition predict (f : Frame) (g : Gesture) : Gesture * option SyntheticEvent :=
  match landmarks f with
  | Some (indexTip, thumbTip) =>
      let final := smoothCursor (lastCursorPos g) (rawCursor f indexTip) in
      let isPinching := detectPinch (wasPinching g) indexTip thumbTip in
      let '(ev, was') :=
        dispatchPointerEvent f (x final) (y final) isPinching (wasPinching g) in
      ({| cursor := {| cursor_x := x final; cursor_y := y final;
                       cursor_isPinching := isPinching; cursor_visible := true |};
          lastCursorPos := final;
          wasPinching := was' |}, ev)
  | None =>
      ({| cursor := {| cursor_x := cursor_x (cursor g);
                       cursor_y := cursor_y (cursor g);
                       cursor_isPinching := cursor_isPinching (cursor g);
                       cursor_visible := false |};
          lastCursorPos := lastCursorPos g;
          wasPinching := wasPinching g |}, None)
  end.

(** The detection loop over a sequence of frames: the final state and the
    events dispatched, in order. *)
Fixpoint predictAll (fs : list Frame) (g : Gesture)
  : Gesture * list SyntheticEvent :=
  match fs with
  | [] => (g, [])
  | f :: fs' =>
      let '(g1, ev) := predict f g in
      let '(g2, evs) := predictAll fs' g1 in
      (g2, match ev with Some e => e :: evs | None => evs end)
  end.

(** A stream of pointer events as a pointer produces it, starting with the
    button [pressed] or not: downs and ups alternate, and a move carries
    the pressed button exactly between a down and the next up. *)
Fixpoint streamOk (pressed : bool) (evs : list SyntheticEvent) : bool :=
  match evs with
  | [] => true
  | e :: evs' =>
      match ev_type e with
      | pointerdown =>
          negb pressed && (ev_buttons e =? 1)%nat && (ev_pressure e =? 1)%nat
          && streamOk true evs'
      | pointerup =>
          pressed && (ev_buttons e =? 0)%nat && (ev_pressure e =? 0)%nat
          && streamOk false evs'
      | pointermove =>
          (ev_buttons e =? (if pressed then 1 else 0))%nat
          && (ev_pressure e =? (if pressed then 1 else 0))%nat
          && streamOk pressed evs'
      end
  end.

(** The finger distance of the frame is within the hysteresis band, or no
    hand is detected. *)
Definition inBand (f : Frame) : Prop :=
  match landmarks f with
  | Some (indexTip, thumbTip) =>
      PINCH_START_THRESHOLD * PINCH_START_THRESHOLD
      <= hypot2 (x indexTip - x thumbTip) (y indexTip - y thumbTip)
      /\ hypot2 (x indexTip - x thumbTip) (y indexTip - y thumbTip)
         <= PINCH_STOP_THRESHOLD * PINCH_STOP_THRESHOLD
  | None => True
  end.

(** The finger tip of the frame, if any, is inside the camera image. *)
Definition tipInImage (f : Frame) : Prop :=
  match landmarks f with
  | Some (indexTip, _) =>
      0 <= x indexTip <= 1 /\ 0 <= y indexTip <= 1
  | None => True
  end.

(** The point is inside the window of the frame. *)
Definition inWindow (w h : Q) (p : Point) : Prop :=
  0 <= x p <= w /\ 0 <= y p <= h.

(** A frame of an 800 by 600 window: the index finger tip at the centre of
    the image, the thumb tip 0.07 to its right, an element under every
    point. *)
Definition frame_relaxed : Frame :=
  {| landmarks := Some ({| x := 1 # 2; y := 1 # 2 |},
                        {| x := 57 # 100; y := 1 # 2 |});
     innerWidth := 800; innerHeight := 600;
     elementFromPoint := fun _ _ => true |}.

(** ** services/geminiService.ts *)

(** The element of an [Int16Array] stored in the bytes [lo], [hi]: two's
    complement, least significant byte first (the byte order of the
    platforms browsers run on). *)
Definition int16_of_bytes (lo hi : byte) : Z :=
  let u := (Z.of_N (Byte.to_N lo) + 256 * Z.of_N (Byte.to_N hi))%Z in
  if (u <? 32768)%Z then u else (u - 65536)%Z.

(** The elements of an [Int16Array] over the bytes [data]. *)
Fixpoint int16_view (data : list byte) : list Z :=
  match data with
  | lo :: hi :: rest => int16_of_bytes lo hi :: int16_view rest
  | _ => []
  end.

(** [ctx.createBuffer(numberOfChannels, length, sampleRate)] raises
    [NotSupportedError] when the number of channels is zero or above the
    limit [maxChannels] of the implementation, or when the length is zero.
    The sample rate, 24000 in the only call, is within the range every
    implementation supports. *)
Definition createBuffer (maxChannels numberOfChannels length : nat)
  : option (list (list Q)) :=
  if (numberOfChannels =? 0)%nat || (maxChannels <? numberOfChannels)%nat
     || (length =? 0)%nat
  then None
  else Some (repeat (repeat 0 length) numberOfChannels).

(** [decodeAudioData(data, ctx, sampleRate, numChannels)] for [data] a
    [Uint8Array] at offset 0 of its buffer, as [decodeBase64] returns it:
    the channel data of the returned buffer, one list per channel, or
    [None] when [createBuffer] raises.  [frameCount] may have a fraction:
    the buffer has its whole part, and the writes at the last index of the
    loop, past the end of the [Float32Array], have no effect.  A sample
    divided by 32768 is exact in single precision. *)
Definition decodeAudioData (maxChannels : nat) (data : list byte)
           (numChannels : nat) : option (list (list Q)) :=
  let safeLength := (List.length data - List.length data mod 2)%nat in
  let dataInt16 := int16_view (firstn safeLength data) in
  let frameCount := (List.length dataInt16 / numChannels)%nat in
  match createBuffer maxChannels numChannels frameCount with
  | None => None
  | Some _ =>
      Some (map (fun channel =>
                   map (fun i =>
                          inject_Z (nth (i * numChannels + channel) dataInt16 0%Z)
                          / 32768)
                       (seq 0 frameCount))
                (seq 0 numChannels))
  end.

(** The byte of value [z mod 256]. *)
Definition byte_of_Z (z : Z) : byte :=
  match Byte.of_N (Z.to_N (z mod 256)) with
  | Some b => b
  | None => "000"%byte
  end.

(** Raw 16-bit PCM, the format [decodeAudioData] reads: each sample in two's
    complement, least significant byte first. *)
Definition encodePCM16 (samples : list Z) : list byte :=
  flat_map (fun z => [byte_of_Z (z mod 65536); byte_of_Z ((z mod 65536) / 256)])
           samples.


(** * Properties *)

(** ** Numbers *)

Lemma Qlt_bool_iff (a b : Q) : Qlt_bool a b = true <-> a < b.
Proof.
  unfold Qlt_bool. rewrite negb_true_iff.
  split; intro H.
  - apply Qnot_le_lt. intro L. apply Qle_bool_iff in L. congruence.
  - destruct (Qle_bool b a) eqn:E; [|reflexivity].
    apply Qle_bool_iff in E. exfalso. apply (Qlt_not_le _ _ H E).
Qed.

Lemma Qlt_bool_false_iff (a b : Q) : Qlt_bool a b = false <-> b <= a.
Proof.
  unfold Qlt_bool. rewrite negb_false_iff. apply Qle_bool_iff.
Qed.

Lemma hypot2_nonneg (dx dy : Q) : 0 <= hypot2 dx dy.
Proof. unfold hypot2. nra. Qed.

Lemma hypot_lt_iff (dx dy r : Q) :
  hypot_lt dx dy r = true <-> 0 < r /\ hypot2 dx dy < r * r.
Proof.
  unfold hypot_lt. rewrite andb_true_iff, !Qlt_bool_iff. tauto.
Qed.

Lemma hypot_lt_false_iff (dx dy r : Q) :
  hypot_lt dx dy r = false <-> r <= 0 \/ r * r <= hypot2 dx dy.
Proof.
  unfold hypot_lt. rewrite andb_false_iff, !Qlt_bool_false_iff. tauto.
Qed.

Lemma ceil_sqrt_spec (m : Z) :
  (0 <= m)%Z ->
  (0 <= ceil_sqrt m /\ m <= ceil_sqrt m * ceil_sqrt m /\
   forall k, 0 <= k -> m <= k * k -> ceil_sqrt m <= k)%Z.
Proof.
  intro Hm. unfold ceil_sqrt.
  pose proof (Z.sqrt_spec m Hm) as [Hlo Hhi].
  pose proof (Z.sqrt_nonneg m) as Hs.
  destruct (Z.eqb_spec (Z.sqrt m * Z.sqrt m) m) as [E|E].
  - repeat split; try lia. intros k Hk Hmk. nia.
  - repeat split; try lia. intros k Hk Hmk. nia.
Qed.

(** [ceil_half_hypot dx dy] is [ceil(hypot(dx, dy) / 2)]: an integer is at
    least it exactly when twice that integer is at least the length. *)
Lemma ceil_half_hypot_spec (dx dy : Q) (k : nat) :
  (ceil_half_hypot dx dy <= k)%nat <->
  hypot2 dx dy <= (2 * inject_Z (Z.of_nat k)) * (2 * inject_Z (Z.of_nat k)).
Proof.
  unfold ceil_half_hypot.
  set (D := hypot2 dx dy).
  assert (HD : 0 <= D) by apply hypot2_nonneg.
  set (m := Qceiling (D / 4)).
  assert (Hm : (0 <= m)%Z).
  { unfold m. change 0%Z with (Qceiling 0). apply Qceiling_resp_le.
    apply Qle_shift_div_l; lra. }
  destruct (ceil_sqrt_spec m Hm) as (Hn0 & Hn1 & Hn2).
  assert (HmD : D / 4 <= inject_Z m) by apply Qle_ceiling.
  split; intro H.
  - assert (Hk : (ceil_sqrt m <= Z.of_nat k)%Z) by lia.
    assert (Hmk : (m <= Z.of_nat k * Z.of_nat k)%Z) by nia.
    assert (HQ : inject_Z m <= inject_Z (Z.of_nat k * Z.of_nat k)).
    { rewrite <- Zle_Qle. exact Hmk. }
    rewrite inject_Z_mult in HQ.
    assert (D == D / 4 * 4) by field.
    lra.
  - assert (Hmk : (m <= Z.of_nat k * Z.of_nat k)%Z).
    { unfold m. rewrite <- (Qceiling_Z (Z.of_nat k * Z.of_nat k)).
      apply Qceiling_resp_le. rewrite inject_Z_mult.
      apply Qle_shift_div_r; lra. }
    specialize (Hn2 (Z.of_nat k) (Nat2Z.is_nonneg k) Hmk). lia.
Qed.

(** ** Handlers *)

Section HandlerFacts.

Context {C : Canvas2D}.
Variable cfg : LetterPathConfig.

(** [renderFrame] only paints the visible canvas. *)
Lemma renderFrame_screen_only (o : option LetterPathConfig) idx env s :
  exists ops, renderFrame o idx env s = set_screen ops s.
Proof.
  unfold renderFrame. destruct o as [c|].
  - eexists. reflexivity.
  - exists (screen s). destruct s; reflexivity.
Qed.

Lemma initCanvas_fields (o : option LetterPathConfig) env s :
  let s' := initCanvas o env s in
  activeStrokeIdx s' = activeStrokeIdx s /\
  mistakes s' = mistakes s /\
  successTriggered s' = successTriggered s /\
  onSuccess_calls s' = onSuccess_calls s /\
  isDrawingRef s' = isDrawingRef s /\
  lastPosRef s' = lastPosRef s.
Proof.
  unfold initCanvas. destruct o as [c|]; [|cbv zeta; tauto].
  cbv zeta.
  match goal with
  | |- context [renderFrame ?o ?i ?e ?t] =>
      destruct (renderFrame_screen_only o i e t) as [ops E]; rewrite E
  end.
  simpl. tauto.
Qed.

Lemma completeStroke_guard env s :
  (List.length (strokes cfg) <= activeStrokeIdx s)%nat ->
  completeStroke (Some cfg) env s = Ok s.
Proof.
  intro H. unfold completeStroke; simpl.
  apply Nat.leb_le in H. rewrite H. reflexivity.
Qed.

Lemma completeStroke_advance env s stroke :
  nth_error (strokes cfg) (activeStrokeIdx s) = Some stroke ->
  exists s',
    completeStroke (Some cfg) env s = Ok s' /\
    activeStrokeIdx s' = (activeStrokeIdx s + 1)%nat /\
    mistakes s' = mistakes s /\
    isDrawingRef s' = false /\
    lastPosRef s' = None /\
    inkCanvasRef s' =
      option_map (paint [snapStroke env stroke]) (inkCanvasRef s) /\
    successTriggered s' =
      (successTriggered s
       || (List.length (strokes cfg) <=? activeStrokeIdx s + 1)%nat) /\
    onSuccess_calls s' =
      onSuccess_calls s ++
      (if (List.length (strokes cfg) <=? activeStrokeIdx s + 1)%nat
       then [(0 <? mistakes s)%nat] else []).
Proof.
  intro Hn.
  assert (Hlt : (activeStrokeIdx s < List.length (strokes cfg))%nat).
  { apply nth_error_Some. congruence. }
  unfold completeStroke; simpl.
  destruct (Nat.leb_spec (List.length (strokes cfg)) (activeStrokeIdx s)) as [L|_];
    [lia|].
  destruct (inkCanvasRef s) as [i|] eqn:Ei; simpl.
  - rewrite Hn; simpl.
    destruct (List.length (strokes cfg) <=? activeStrokeIdx s + 1)%nat;
      eexists; split; try reflexivity; simpl; rewrite ?orb_true_r, ?orb_false_r, ?app_nil_r;
      repeat split; reflexivity.
  - destruct (List.length (strokes cfg) <=? activeStrokeIdx s + 1)%nat;
      eexists; split; try reflexivity; simpl; rewrite ?Ei, ?orb_true_r, ?orb_false_r, ?app_nil_r;
      repeat split; reflexivity.
Qed.

Lemma draw_capturing env e s inkCanvas stroke :
  capturing cfg env s inkCanvas stroke ->
  draw (Some cfg) env e s =
    if nearEnd env e stroke
    then completeStroke (Some cfg) env (inked cfg env e s inkCanvas stroke)
    else Ok (inked cfg env e s inkCanvas stroke).
Proof.
  intros (Hd & Ha & Hs & Hi & Hn).
  unfold draw, bind, defined. rewrite Hd, Ha, Hs, Hi, Hn.
  reflexivity.
Qed.

Lemma inked_fields env e s inkCanvas stroke :
  let s' := inked cfg env e s inkCanvas stroke in
  activeStrokeIdx s' = activeStrokeIdx s /\
  mistakes s' = mistakes s /\
  successTriggered s' = successTriggered s /\
  isDrawingRef s' = isDrawingRef s /\
  lastPosRef s' = Some (rawPoint env e) /\
  onSuccess_calls s' = onSuccess_calls s /\
  inkCanvasRef s' =
    Some (paint
            (map (stamp (ink_scale inkCanvas) (rect_width (canvasRect env)))
                 (accepted env e s stroke))
            inkCanvas).
Proof.
  unfold inked. simpl. repeat split; reflexivity.
Qed.

(** Outside a capture [draw] does nothing. *)
Lemma draw_not_capturing env e s :
  isDrawingRef s = false \/ isActive env = false \/
  successTriggered s = true \/ inkCanvasRef s = None ->
  draw (Some cfg) env e s = Ok s.
Proof.
  unfold draw. intros [H|[H|[H|H]]]; rewrite H; simpl;
    rewrite ?orb_true_r; try reflexivity.
  destruct (negb (isDrawingRef s) || negb (isActive env) || successTriggered s);
    reflexivity.
Qed.

Lemma draw_transition env e s s' (ev : Event) :
  (ev = PointerDown e \/ ev = PointerMove e) ->
  draw (Some cfg) env e s = Ok s' ->
  transition cfg env ev s s'.
Proof.
  intros Hev H.
  destruct (isDrawingRef s) eqn:Hd;
    [|rewrite draw_not_capturing in H by auto; inversion H; subst;
      apply tr_quiet; reflexivity].
  destruct (isActive env) eqn:Ha;
    [|rewrite draw_not_capturing in H by auto; inversion H; subst;
      apply tr_quiet; reflexivity].
  destruct (successTriggered s) eqn:Hs;
    [rewrite draw_not_capturing in H by auto; inversion H; subst;
      apply tr_quiet; reflexivity|].
  destruct (inkCanvasRef s) as [i|] eqn:Hi;
    [|rewrite draw_not_capturing in H by auto; inversion H; subst;
      apply tr_quiet; reflexivity].
  destruct (nth_error (strokes cfg) (activeStrokeIdx s)) as [stroke|] eqn:Hn.
  - rewrite (draw_capturing env e s i stroke) in H
      by (unfold capturing; auto).
    destruct (inked_fields env e s i stroke) as (F1 & F2 & F3 & F4 & F5 & F6 & F7).
    destruct (nearEnd env e stroke).
    + destruct (completeStroke_advance env (inked cfg env e s i stroke) stroke)
        as (s'' & E & G1 & G2 & G3 & G4 & G5 & G6 & G7).
      { rewrite F1. exact Hn. }
      rewrite E in H. inversion H; subst s''.
      rewrite F1, F2, F3, F6 in *. rewrite Hs in G6. simpl in G6.
      apply tr_complete; auto.
      * exists e. exact Hev.
      * apply nth_error_Some. congruence.
    + inversion H; subst s'. apply tr_quiet; auto.
  - unfold draw in H. rewrite Hd, Ha, Hs, Hi in H. simpl in H.
    rewrite Hn in H. simpl in H. discriminate.
Qed.

Lemma startDrawing_transition env e s s' :
  startDrawing (Some cfg) env e s = Ok s' ->
  transition cfg env (PointerDown e) s s'.
Proof.
  unfold startDrawing. simpl.
  destruct (negb (isActive env) || successTriggered s) eqn:G.
  - intro H; inversion H; subst. apply tr_quiet; reflexivity.
  - destruct (List.length (strokes cfg) <=? activeStrokeIdx s)%nat.
    + intro H; inversion H; subst. apply tr_quiet; reflexivity.
    + intro H. apply (draw_transition env e _ s' (PointerDown e)) in H; [|auto].
      destruct H as [Q1 Q2 Q3 Q4|T1 T2 T3 T4 T5 T6 T7 T8 T9|R1 R2 R3 R4].
      * apply tr_quiet; assumption.
      * apply tr_complete; assumption.
      * discriminate.
Qed.

Lemma handle_transition env ev s s' :
  handle (Some cfg) env ev s = Ok s' -> transition cfg env ev s s'.
Proof.
  destruct ev as [e|e|e|e| |]; simpl.
  - apply startDrawing_transition.
  - apply draw_transition. auto.
  - intro H; inversion H; subst. apply tr_quiet; reflexivity.
  - intro H; inversion H; subst. apply tr_quiet; reflexivity.
  - unfold resetDisabled.
    destruct (isActive env) eqn:Ha; simpl.
    + destruct (successTriggered s) eqn:Hs; intro H; inversion H; subst.
      * apply tr_quiet; auto.
      * apply tr_reset; auto.
    + intro H; inversion H; subst. apply tr_quiet; reflexivity.
  - intro H; inversion H; subst.
    destruct (initCanvas_fields (Some cfg) env s) as (F1 & F2 & F3 & F4 & F5 & F6).
    apply tr_quiet; assumption.
Qed.

End HandlerFacts.

(** ** Sessions *)

Section SessionFacts.

Context {C : Canvas2D}.

Lemma handleReset_fields (o : option LetterPathConfig) env s :
  let s' := handleReset o env s in
  activeStrokeIdx s' = 0%nat /\
  mistakes s' = (mistakes s + 1)%nat /\
  successTriggered s' = false /\
  onSuccess_calls s' = onSuccess_calls s /\
  ink s' = [] /\
  isDrawingRef s' = isDrawingRef s /\
  lastPosRef s' = lastPosRef s.
Proof.
  unfold handleReset. cbv zeta.
  match goal with
  | |- context [renderFrame ?o ?i ?e ?t] =>
      destruct (renderFrame_screen_only o i e t) as [ops E]; rewrite E
  end.
  unfold ink. simpl. destruct (inkCanvasRef s); simpl; tauto.
Qed.

Lemma letterChanged_fields s :
  let s' := letterChanged s in
  activeStrokeIdx s' = 0%nat /\
  mistakes s' = 0%nat /\
  successTriggered s' = false /\
  onSuccess_calls s' = [] /\
  ink s' = [].
Proof.
  unfold letterChanged, resetOnLetterChange, ink. simpl.
  destruct (inkCanvasRef s); simpl; tauto.
Qed.

Lemma mount_invariant cfg : session_invariant cfg mount.
Proof.
  unfold session_invariant; simpl. repeat split; try lia; try discriminate.
  intros _ Hne. destruct (strokes cfg); [congruence|simpl; lia].
Qed.

Lemma letterChanged_invariant cfg s : session_invariant cfg (letterChanged s).
Proof.
  destruct (letterChanged_fields s) as (F1 & F2 & F3 & F4 & F5).
  unfold session_invariant. rewrite F1, F3, F4.
  repeat split; try lia; try discriminate.
  intros _ Hne. destruct (strokes cfg); [congruence|simpl; lia].
Qed.

Lemma transition_invariant cfg env ev s s' :
  session_invariant cfg s -> transition cfg env ev s s' ->
  session_invariant cfg s'.
Proof.
  intros (I1 & I2 & I3 & I4)
         [Q1 Q2 Q3 Q4|T1 T2 T3 T4 T5 T6 T7 T8 T9|R1 R2 R3 R4].
  - unfold session_invariant. rewrite Q1, Q2, Q3, Q4. auto.
  - unfold session_invariant. rewrite T5, T6, T8, T9.
    rewrite T3 in I2. rewrite I2. simpl.
    destruct (Nat.leb_spec (List.length (strokes cfg)) (activeStrokeIdx s + 1)).
    + repeat split; try lia; try discriminate.
    + repeat split; try lia; try discriminate.
  - destruct (handleReset_fields (Some cfg) env s) as (F1 & F2 & F3 & F4 & F5 & _).
    subst s'. unfold session_invariant. rewrite F1, F3, F4.
    rewrite R3 in I2.
    repeat split; try lia; try assumption; try discriminate.
    intros _ Hne. destruct (strokes cfg); [congruence|simpl; lia].
Qed.

Lemma reachable_invariant cfg s :
  reachable (Some cfg) s -> session_invariant cfg s.
Proof.
  intro R. remember (Some cfg) as o eqn:Eo.
  induction R as [o|o0 o s R IH|o env ev s s' R IH H]; subst.
  - apply mount_invariant.
  - apply letterChanged_invariant.
  - apply (transition_invariant cfg env ev s s'); auto.
    apply handle_transition. exact H.
Qed.

Lemma run_reachable o env evs : forall s s',
  reachable o s -> run o env evs s = Ok s' -> reachable o s'.
Proof.
  induction evs as [|ev evs IH]; simpl; intros s s' R H.
  - inversion H; subst; exact R.
  - destruct (handle o env ev s) as [s1|] eqn:E; simpl in H; [|discriminate].
    apply (IH s1 s'); [|exact H].
    apply (reach_event o env ev s s1); assumption.
Qed.

End SessionFacts.

(** ** Captures *)

Section CaptureFacts.

Context {C : Canvas2D}.
Variable cfg : LetterPathConfig.

(** What a successful [draw] did. *)
Lemma draw_cases env e s s' :
  draw (Some cfg) env e s = Ok s' ->
  s' = s \/
  exists inkCanvas stroke,
    capturing cfg env s inkCanvas stroke /\
    (s' = inked cfg env e s inkCanvas stroke \/
     completeStroke (Some cfg) env (inked cfg env e s inkCanvas stroke) = Ok s').
Proof.
  intro H.
  destruct (isDrawingRef s) eqn:Hd;
    [|rewrite draw_not_capturing in H by auto; inversion H; auto].
  destruct (isActive env) eqn:Ha;
    [|rewrite draw_not_capturing in H by auto; inversion H; auto].
  destruct (successTriggered s) eqn:Hs;
    [rewrite draw_not_capturing in H by auto; inversion H; auto|].
  destruct (inkCanvasRef s) as [i|] eqn:Hi;
    [|rewrite draw_not_capturing in H by auto; inversion H; auto].
  destruct (nth_error (strokes cfg) (activeStrokeIdx s)) as [stroke|] eqn:Hn.
  - assert (Hc : capturing cfg env s i stroke) by (unfold capturing; auto).
    rewrite (draw_capturing cfg env e s i stroke Hc) in H.
    right. exists i, stroke. split; [exact Hc|].
    destruct (nearEnd env e stroke); [right; exact H|left; inversion H; auto].
  - unfold draw, bind, defined in H. rewrite Hd, Ha, Hs, Hi, Hn in H.
    discriminate.
Qed.

Lemma draw_capture_invariant env e s s' :
  draw (Some cfg) env e s = Ok s' ->
  capture_invariant cfg s -> capture_invariant cfg s'.
Proof.
  intros H I.
  destruct (draw_cases env e s s' H) as [->|(i & stroke & Hc & [->|Hs'])];
    [exact I| |].
  - destruct (inked_fields cfg env e s i stroke) as (F1 & _ & _ & F4 & _).
    unfold capture_invariant. rewrite F1, F4. exact I.
  - destruct (inked_fields cfg env e s i stroke) as (F1 & _).
    destruct Hc as (_ & _ & _ & _ & Hn).
    destruct (completeStroke_advance cfg env (inked cfg env e s i stroke) stroke)
      as (s'' & E & _ & _ & G3 & _).
    { rewrite F1. exact Hn. }
    rewrite E in Hs'. inversion Hs'; subst s''.
    unfold capture_invariant. rewrite G3. discriminate.
Qed.

Lemma handle_capture_invariant env ev s s' :
  strokes cfg <> [] ->
  handle (Some cfg) env ev s = Ok s' ->
  capture_invariant cfg s -> capture_invariant cfg s'.
Proof.
  intros Hne H I.
  destruct ev as [e|e|e|e| |]; unfold handle in H.
  - unfold startDrawing, bind, defined in H.
    destruct (negb (isActive env) || successTriggered s);
      [inversion H; subst; exact I|].
    destruct (Nat.leb_spec (List.length (strokes cfg)) (activeStrokeIdx s)) as [L|L];
      [inversion H; subst; exact I|].
    apply (draw_capture_invariant env e _ s' H).
    intros _. exact L.
  - apply (draw_capture_invariant env e s s' H I).
  - inversion H; subst. intro D. discriminate.
  - inversion H; subst. intro D. discriminate.
  - destruct (resetDisabled env s); [inversion H; subst; exact I|].
    assert (E : s' = handleReset (Some cfg) env s) by congruence. subst s'.
    destruct (handleReset_fields (Some cfg) env s) as (F1 & _).
    unfold capture_invariant. rewrite F1. intros _.
    destruct (strokes cfg); [congruence|simpl; lia].
  - assert (E : s' = initCanvas (Some cfg) env s) by congruence. subst s'.
    destruct (initCanvas_fields (Some cfg) env s) as (F1 & _ & _ & _ & F5 & _).
    unfold capture_invariant. rewrite F1, F5. exact I.
Qed.

(** Once the ink canvas exists it stays. *)
Lemma handle_keeps_surface env ev s s' :
  handle (Some cfg) env ev s = Ok s' ->
  inkCanvasRef s <> None -> inkCanvasRef s' <> None.
Proof.
  intros H I.
  assert (D : forall e t t', inkCanvasRef t <> None ->
                             draw (Some cfg) env e t = Ok t' ->
                             inkCanvasRef t' <> None).
  { intros e t t' It Ht.
    destruct (draw_cases env e t t' Ht) as [->|(i & stroke & Hc & [->|Hs'])];
      [exact It| |].
    - destruct (inked_fields cfg env e t i stroke) as (_ & _ & _ & _ & _ & _ & F7).
      rewrite F7. discriminate.
    - destruct (inked_fields cfg env e t i stroke) as (F1 & _ & _ & _ & _ & _ & F7).
      destruct Hc as (_ & _ & _ & _ & Hn).
      destruct (completeStroke_advance cfg env (inked cfg env e t i stroke) stroke)
        as (s'' & E & _ & _ & _ & _ & G5 & _).
      { rewrite F1. exact Hn. }
      rewrite E in Hs'. inversion Hs'; subst s''.
      rewrite G5, F7. discriminate. }
  destruct ev as [e|e|e|e| |]; unfold handle in H.
  - unfold startDrawing, bind, defined in H.
    destruct (negb (isActive env) || successTriggered s);
      [inversion H; subst; exact I|].
    destruct (List.length (strokes cfg) <=? activeStrokeIdx s)%nat;
      [inversion H; subst; exact I|].
    refine (D e _ s' _ H). exact I.
  - apply (D e s s'); assumption.
  - inversion H; subst. exact I.
  - inversion H; subst. exact I.
  - destruct (resetDisabled env s); [inversion H; subst; exact I|].
    assert (E : s' = handleReset (Some cfg) env s) by congruence. subst s'.
    unfold handleReset. cbv zeta.
    match goal with
    | |- context [renderFrame ?o ?i ?e ?t] =>
        destruct (renderFrame_screen_only o i e t) as [ops E]; rewrite E
    end.
    simpl. destruct (inkCanvasRef s); [discriminate|congruence].
  - assert (E : s' = initCanvas (Some cfg) env s) by congruence. subst s'.
    unfold initCanvas. cbv zeta.
    match goal with
    | |- context [renderFrame ?o ?i ?e ?t] =>
        destruct (renderFrame_screen_only o i e t) as [ops E]; rewrite E
    end.
    simpl. discriminate.
Qed.

Lemma reachable_capture_invariant s :
  strokes cfg <> [] ->
  reachable (Some cfg) s -> capture_invariant cfg s.
Proof.
  intros Hne R. remember (Some cfg) as o eqn:Eo.
  induction R as [o|o0 o s R IH|o env ev s s' R IH H]; subst.
  - intro D. discriminate.
  - intros _. destruct (letterChanged_fields s) as (F1 & _). rewrite F1.
    destruct (strokes cfg); [congruence|simpl; lia].
  - apply (handle_capture_invariant env ev s s' Hne H). apply IH. reflexivity.
Qed.

(** In a reachable state of a letter that has strokes, on an initialised
    surface, a move is captured as soon as [draw] passes its first guard. *)
Lemma capture_ready env s :
  strokes cfg <> [] ->
  reachable (Some cfg) s ->
  inkCanvasRef s <> None ->
  isDrawingRef s = true -> isActive env = true -> successTriggered s = false ->
  exists inkCanvas stroke, capturing cfg env s inkCanvas stroke.
Proof.
  intros Hne R Hi Hd Ha Hs.
  pose proof (reachable_capture_invariant s Hne R Hd) as Hlt.
  destruct (inkCanvasRef s) as [i|] eqn:Ei; [|congruence].
  destruct (nth_error (strokes cfg) (activeStrokeIdx s)) as [stroke|] eqn:En.
  - exists i, stroke. unfold capturing. auto.
  - apply nth_error_None in En. lia.
Qed.

End CaptureFacts.

(** ** The application *)

Lemma GameState_eqb_eq (g h : GameState) : GameState_eqb g h = true <-> g = h.
Proof. destruct g, h; simpl; split; intro H; try reflexivity; discriminate. Qed.

Lemma skipn_length_app {A : Type} (l x : list A) :
  skipn (List.length l) (l ++ x) = x.
Proof. induction l as [|a l IH]; simpl; auto. Qed.

Lemma newCalls_same (s s' : Card) :
  onSuccess_calls s' = onSuccess_calls s -> newCalls s s' = [].
Proof.
  intro H. unfold newCalls. rewrite H.
  rewrite <- (app_nil_r (onSuccess_calls s)) at 2. apply skipn_length_app.
Qed.

(** A handled event makes at most one call of [onSuccess], and none on an
    inactive surface. *)
Lemma handle_newCalls {C : Canvas2D} (cfg : LetterPathConfig) env ev s s' :
  handle (Some cfg) env ev s = Ok s' ->
  newCalls s s' = [] \/
  (isActive env = true /\ exists b, newCalls s s' = [b]).
Proof.
  intro H.
  destruct (handle_transition cfg env ev s s' H)
    as [_ _ _ Q4|_ T2 _ _ _ _ _ _ T9|_ _ _ R4].
  - left. apply newCalls_same. exact Q4.
  - unfold newCalls. rewrite T9, skipn_length_app.
    destruct (List.length (strokes cfg) <=? activeStrokeIdx s + 1)%nat.
    + right. split; [exact T2|]. eexists. reflexivity.
    + left. reflexivity.
  - left. apply newCalls_same. subst s'.
    apply (handleReset_fields (Some cfg) env s).
Qed.

Lemma level_cases (a : App) :
  (currentLevelIdx a < List.length LEVELS)%nat ->
  currentLevelIdx a = 0%nat \/ currentLevelIdx a = 1%nat.
Proof. simpl. lia. Qed.

Lemma renderApp_keeps (a : App) (level : LevelData) (s : Card) :
  gameState a <> INTRO -> currentLevel a = Some level ->
  renderApp a (Some (letter level, s)) = Ok (Some (letter level, s)).
Proof.
  intros G L. unfold renderApp.
  destruct (GameState_eqb (gameState a) INTRO) eqn:E;
    [apply GameState_eqb_eq in E; congruence|].
  rewrite L. simpl. rewrite String.eqb_refl. reflexivity.
Qed.

Lemma renderApp_mounts (a : App) (level : LevelData) (prev : option (string * Card)) :
  gameState a <> INTRO -> currentLevel a = Some level ->
  (forall k s, prev = Some (k, s) -> k <> letter level) ->
  renderApp a prev = Ok (Some (letter level, resetOnLetterChange mount)).
Proof.
  intros G L K. unfold renderApp.
  destruct (GameState_eqb (gameState a) INTRO) eqn:E;
    [apply GameState_eqb_eq in E; congruence|].
  rewrite L. simpl. destruct prev as [[k s]|]; [|reflexivity].
  destruct (String.eqb_spec k (letter level)) as [Ek|_]; [|reflexivity].
  exfalso. apply (K k s eq_refl Ek).
Qed.

Lemma level_geometry (a : App) (level : LevelData) :
  currentLevel a = Some level ->
  exists cfg, LETTER_PATHS (letter level) = Some cfg.
Proof.
  unfold currentLevel. intro H.
  destruct (currentLevelIdx a) as [|[|n]]; simpl in H.
  - inversion H; subst. eexists. reflexivity.
  - inversion H; subst. eexists. reflexivity.
  - destruct n; discriminate.
Qed.

Lemma handleLevelSuccess_fields coin b a :
  gameState (handleLevelSuccess coin b a) = SUCCESS_ANIMATION /\
  currentLevelIdx (handleLevelSuccess coin b a) = currentLevelIdx a.
Proof. unfold handleLevelSuccess. destruct b; simpl; auto. Qed.

Lemma world_step_invariant {C : Canvas2D} ev w w' :
  world_invariant w -> worldStep ev w = Ok w' -> world_invariant w'.
Proof.
  intros (I1 & I2 & I3 & I4 & I5) H.
  destruct w as [a ts sf]; simpl in *.
  destruct ev as [|env ev coin| |]; simpl in H.
  - (* StartClick *)
    destruct (GameState_eqb (gameState a) INTRO) eqn:G;
      [|inversion H; subst; unfold world_invariant; simpl; auto].
    apply GameState_eqb_eq in G.
    destruct I2 as [I2|(I2 & _)]; [|congruence].
    rewrite (I4 G) in H. subst ts.
    destruct (level_cases a I1) as [E|E];
      unfold renderApp, currentLevel, handleStartGame in H; simpl in H;
      rewrite E in H; simpl in H; inversion H; subst;
      unfold world_invariant, currentLevel; simpl; rewrite E; simpl;
      (repeat split; try lia; try discriminate; auto);
      intros _; do 2 eexists; split; reflexivity.
  - (* CardEvent *)
    destruct sf as [[k s]|]; [|inversion H; subst; unfold world_invariant; simpl; auto].
    assert (G : gameState a <> INTRO).
    { intro G. specialize (I4 G). discriminate. }
    destruct (I5 G) as (level & s0 & L & E). inversion E; subst k s0.
    destruct (level_geometry a level L) as (cfg & Ecfg).
    rewrite Ecfg in H.
    destruct (handle (Some cfg) (cardEnv a env) ev s) as [s'|] eqn:Hh;
      simpl in H; [|discriminate].
    destruct (handle_newCalls cfg (cardEnv a env) ev s s' Hh) as [N|(A & b & N)]; rewrite N in H.
    + simpl in H. rewrite app_nil_r in H.
      rewrite (renderApp_keeps a level s' G L) in H. simpl in H.
      inversion H; subst. unfold world_invariant; simpl.
      split; [exact I1|]. split; [exact I2|]. split; [exact I3|].
      split; [intro; congruence|].
      intros _. exists level, s'. auto.
    + cbn [isActive cardEnv] in A. apply GameState_eqb_eq in A.
      destruct I2 as [I2|(I2 & _)]; [|congruence]. subst ts.
      destruct (handleLevelSuccess_fields coin b a) as (F1 & F2).
      cbn [fold_left map app] in H.
      rewrite (renderApp_keeps (handleLevelSuccess coin b a) level s') in H;
        [|congruence|unfold currentLevel in *; rewrite F2; exact L].
      cbn [bind] in H. injection H as <-.
      unfold world_invariant; cbn [app timers surface].
      rewrite F1, F2.
      split; [exact I1|].
      split; [right; split; [reflexivity|]; exists a; auto|].
      split; [discriminate|]. split; [discriminate|].
      intros _. exists level, s'. unfold currentLevel in *. rewrite F2. auto.
  - (* TimeoutFires *)
    destruct ts as [|render ts]; [inversion H; subst; unfold world_invariant; simpl; auto|].
    destruct I2 as [I2|(G & r & Er & Ei)]; [discriminate|].
    inversion Er; subst r ts.
    assert (G' : gameState a <> INTRO) by congruence.
    destruct (I5 G') as (level & s0 & L & E). subst sf.
    unfold currentLevel in L.
    destruct (level_cases a I1) as [E|E]; rewrite E in *; simpl in L;
      inversion L; subst level;
      unfold levelTimeout, finishGame, renderApp, currentLevel in H;
      rewrite Ei in H; simpl in H; rewrite ?E in H; simpl in H;
      inversion H; subst;
      unfold world_invariant, currentLevel; simpl; rewrite ?E; simpl;
      (repeat split; try lia; try discriminate; auto);
      intros _; do 2 eexists; split; reflexivity.
  - (* RestartClick *)
    destruct (GameState_eqb (gameState a) FINISHED) eqn:G;
      [|inversion H; subst; unfold world_invariant; simpl; auto].
    apply GameState_eqb_eq in G.
    destruct I2 as [I2|(I2 & _)]; [|congruence]. subst ts.
    assert (G' : gameState a <> INTRO) by congruence.
    destruct (I5 G') as (level & s0 & L & E). subst sf.
    specialize (I3 G). simpl in I3.
    unfold currentLevel in L. rewrite I3 in L. simpl in L. inversion L; subst level.
    unfold restartGame, renderApp, currentLevel in H. simpl in H.
    inversion H; subst.
    unfold world_invariant, currentLevel; simpl.
    (repeat split; try lia; try discriminate; auto).
    intros _; do 2 eexists; split; reflexivity.
Qed.

Lemma world_reachable_invariant {C : Canvas2D} w :
  worldReachable w -> world_invariant w.
Proof.
  induction 1 as [|ev w w' R IH H].
  - unfold world_invariant; simpl.
    repeat split; try lia; try discriminate; auto.
    intro H. congruence.
  - apply (world_step_invariant ev w w' IH H).
Qed.

(** When a step of the application makes a level active, the tracing
    surface of that level is freshly mounted. *)
Lemma level_activation_mounts {C : Canvas2D} ev w w' :
  worldReachable w -> worldStep ev w = Ok w' ->
  gameState (app w) <> PLAYING -> gameState (app w') = PLAYING ->
  exists level,
    currentLevel (app w') = Some level /\
    surface w' = Some (letter level, resetOnLetterChange mount).
Proof.
  intros R H G G'.
  destruct (world_reachable_invariant w R) as (I1 & I2 & I3 & I4 & I5).
  destruct w as [a ts sf]; simpl in *.
  destruct ev as [|env ev coin| |]; simpl in H.
  - (* StartClick *)
    destruct (GameState_eqb (gameState a) INTRO) eqn:E;
      [|inversion H; subst; simpl in G'; congruence].
    apply GameState_eqb_eq in E. rewrite (I4 E) in H.
    destruct (level_cases a I1) as [Ei|Ei];
      unfold renderApp, currentLevel, handleStartGame in H; simpl in H;
      rewrite Ei in H; simpl in H; inversion H; subst;
      unfold currentLevel; simpl; rewrite Ei; simpl;
      eexists; split; reflexivity.
  - (* CardEvent *)
    exfalso.
    destruct sf as [[k s]|]; [|inversion H; subst; simpl in G'; congruence].
    assert (Gi : gameState a <> INTRO).
    { intro Gi. specialize (I4 Gi). discriminate. }
    destruct (I5 Gi) as (level & s0 & L & E). inversion E; subst k s0.
    destruct (level_geometry a level L) as (cfg & Ecfg).
    rewrite Ecfg in H.
    destruct (handle (Some cfg) (cardEnv a env) ev s) as [s'|] eqn:Hh;
      simpl in H; [|discriminate].
    destruct (handle_newCalls cfg (cardEnv a env) ev s s' Hh) as [N|(A & b & N)];
      rewrite N in H.
    + cbn [fold_left map app] in H.
      rewrite (renderApp_keeps a level s' Gi L) in H. cbn [bind] in H.
      injection H as <-. simpl in G'. congruence.
    + destruct (handleLevelSuccess_fields coin b a) as (F1 & F2).
      cbn [fold_left map app] in H.
      rewrite (renderApp_keeps (handleLevelSuccess coin b a) level s') in H;
        [|congruence|unfold currentLevel in *; rewrite F2; exact L].
      cbn [bind] in H. injection H as <-. simpl in G'. congruence.
  - (* TimeoutFires *)
    destruct ts as [|render ts]; [inversion H; subst; simpl in G'; congruence|].
    destruct I2 as [I2|(Gs & r & Er & Ei)]; [discriminate|].
    inversion Er; subst r ts.
    assert (Gi : gameState a <> INTRO) by congruence.
    destruct (I5 Gi) as (level & s0 & L & E). subst sf.
    unfold currentLevel in L.
    destruct (level_cases a I1) as [E|E]; rewrite E in *; simpl in L;
      inversion L; subst level;
      unfold levelTimeout, finishGame, renderApp, currentLevel in H;
      rewrite Ei in H; simpl in H; rewrite ?E in H; simpl in H;
      inversion H; subst; simpl in G'; try discriminate.
    unfold currentLevel; simpl. rewrite ?E. simpl.
    eexists; split; reflexivity.
  - (* RestartClick *)
    destruct (GameState_eqb (gameState a) FINISHED) eqn:E;
      [|inversion H; subst; simpl in G'; congruence].
    apply GameState_eqb_eq in E.
    assert (Gi : gameState a <> INTRO) by congruence.
    destruct (I5 Gi) as (level & s0 & L & Es). subst sf.
    specialize (I3 E). simpl in I3.
    unfold currentLevel in L. rewrite I3 in L. simpl in L. inversion L; subst level.
    unfold restartGame, renderApp, currentLevel in H. simpl in H.
    inversion H; subst.
    unfold currentLevel; simpl. eexists; split; reflexivity.
Qed.

Lemma runWorld_reachable {C : Canvas2D} evs : forall w w',
  worldReachable w -> runWorld evs w = Ok w' -> worldReachable w'.
Proof.
  induction evs as [|ev evs IH]; simpl; intros w w' R H.
  - inversion H; subst; exact R.
  - destruct (worldStep ev w) as [w1|] eqn:E; simpl in H; [|discriminate].
    apply (IH w1 w'); [|exact H].
    apply (wreach_step ev w w1); assumption.
Qed.


(** ** Interpolation *)

Lemma lerp_affine (a b t : Q) : lerp a b t == a + t * (b - a).
Proof. unfold lerp. ring. Qed.

Lemma samples_length (last cur : Point) :
  List.length (samples last cur) = S (sample_steps last cur).
Proof. unfold samples. rewrite length_map, length_seq. reflexivity. Qed.

Lemma samples_nth (last cur : Point) (i : nat) :
  (i <= sample_steps last cur)%nat ->
  nth_error (samples last cur) i =
    Some {| x := lerp (x last) (x cur) (sample_t (sample_steps last cur) i);
            y := lerp (y last) (y cur) (sample_t (sample_steps last cur) i) |}.
Proof.
  intro H. unfold samples. rewrite nth_error_map, nth_error_seq.
  destruct (Nat.ltb_spec i (S (sample_steps last cur))); [reflexivity|lia].
Qed.

(** No steps: the two raw points coincide. *)
Lemma sample_steps_0 (last cur : Point) :
  sample_steps last cur = 0%nat -> point_eq cur last.
Proof.
  intro H.
  assert (L : (sample_steps last cur <= 0)%nat) by lia.
  apply ceil_half_hypot_spec in L.
  change (inject_Z (Z.of_nat 0)) with 0 in L.
  unfold hypot2 in L. unfold point_eq.
  set (dx := x cur - x last) in *. set (dy := y cur - y last) in *.
  assert (Hx : dx * dx <= 0) by nra.
  assert (Hy : dy * dy <= 0) by nra.
  assert (Zx : dx == 0) by nra.
  assert (Zy : dy == 0) by nra.
  unfold dx, dy in *. split; lra.
Qed.

Lemma inject_nat_pos (n : nat) : (0 < n)%nat -> 0 < inject_Z (Z.of_nat n).
Proof.
  intro H. change 0 with (inject_Z 0). rewrite <- Zlt_Qlt. lia.
Qed.

Lemma inject_nat_S (n : nat) :
  inject_Z (Z.of_nat (S n)) == inject_Z (Z.of_nat n) + 1.
Proof.
  rewrite Nat2Z.inj_succ. unfold Z.succ. rewrite inject_Z_plus. reflexivity.
Qed.

Lemma sample_first (last cur : Point) :
  exists p, nth_error (samples last cur) 0 = Some p /\ point_eq p last.
Proof.
  eexists. split; [apply samples_nth; lia|].
  unfold point_eq, sample_t; simpl.
  destruct (Nat.eqb_spec (sample_steps last cur) 0) as [E|E].
  - destruct (sample_steps_0 last cur E) as [Hx Hy].
    rewrite !lerp_affine. split; lra.
  - rewrite !lerp_affine. unfold Qdiv. split; ring.
Qed.

Lemma sample_final (last cur : Point) :
  exists q, nth_error (samples last cur) (sample_steps last cur) = Some q /\
            point_eq q cur.
Proof.
  eexists. split; [apply samples_nth; lia|].
  unfold point_eq, sample_t; simpl.
  destruct (Nat.eqb_spec (sample_steps last cur) 0) as [E|E].
  - rewrite !lerp_affine. split; ring.
  - assert (P : 0 < inject_Z (Z.of_nat (sample_steps last cur)))
      by (apply inject_nat_pos; lia).
    rewrite !lerp_affine. split; field; lra.
Qed.

Lemma sample_spacing (last cur : Point) (i : nat) :
  (i < sample_steps last cur)%nat ->
  exists p q,
    nth_error (samples last cur) i = Some p /\
    nth_error (samples last cur) (S i) = Some q /\
    x q - x p == (x cur - x last) / inject_Z (Z.of_nat (sample_steps last cur)) /\
    y q - y p == (y cur - y last) / inject_Z (Z.of_nat (sample_steps last cur)) /\
    hypot2 (x q - x p) (y q - y p) <= 2 * 2.
Proof.
  intro H.
  set (n := sample_steps last cur) in *.
  assert (P : 0 < inject_Z (Z.of_nat n)) by (apply inject_nat_pos; lia).
  do 2 eexists.
  split; [apply samples_nth; fold n; lia|].
  split; [apply samples_nth; fold n; lia|].
  fold n. simpl. unfold sample_t.
  destruct (Nat.eqb_spec n 0) as [E|_]; [lia|].
  assert (Ex : lerp (x last) (x cur) (inject_Z (Z.of_nat (S i)) / inject_Z (Z.of_nat n))
               - lerp (x last) (x cur) (inject_Z (Z.of_nat i) / inject_Z (Z.of_nat n))
               == (x cur - x last) / inject_Z (Z.of_nat n)).
  { rewrite !lerp_affine, inject_nat_S. field. lra. }
  assert (Ey : lerp (y last) (y cur) (inject_Z (Z.of_nat (S i)) / inject_Z (Z.of_nat n))
               - lerp (y last) (y cur) (inject_Z (Z.of_nat i) / inject_Z (Z.of_nat n))
               == (y cur - y last) / inject_Z (Z.of_nat n)).
  { rewrite !lerp_affine, inject_nat_S. field. lra. }
  split; [exact Ex|]. split; [exact Ey|].
  unfold hypot2. rewrite Ex, Ey.
  assert (L : (n <= n)%nat) by lia.
  apply ceil_half_hypot_spec in L. unfold hypot2 in L.
  set (N := inject_Z (Z.of_nat n)) in *.
  set (dx := x cur - x last) in *. set (dy := y cur - y last) in *.
  assert (E : dx / N * (dx / N) + dy / N * (dy / N)
              == (dx * dx + dy * dy) / (N * N)) by (field; lra).
  rewrite E. apply Qle_shift_div_r; [nra|]. lra.
Qed.

(** The ink after a captured move: the ink before, the stamps of the
    accepted samples, and the snapped stroke if the move completed it. *)
Lemma draw_ink {C : Canvas2D} (cfg : LetterPathConfig) (env : Env)
      (e : PointerEvent) (s : Card) (inkCanvas : InkCanvas) (stroke : Stroke) :
  capturing cfg env s inkCanvas stroke ->
  exists s' tail,
    draw (Some cfg) env e s = Ok s' /\
    ink s' = ink s
             ++ map (stamp (ink_scale inkCanvas) (rect_width (canvasRect env)))
                    (accepted env e s stroke)
             ++ tail /\
    (tail = [] \/ tail = [snapStroke env stroke]).
Proof.
  intro Hc.
  pose proof (draw_capturing cfg env e s inkCanvas stroke Hc) as Hd.
  destruct (inked_fields cfg env e s inkCanvas stroke)
    as (F1 & F2 & F3 & F4 & F5 & F6 & F7).
  destruct Hc as (Hdr & Ha & Hs & Hi & Hn).
  destruct (nearEnd env e stroke).
  - destruct (completeStroke_advance cfg env (inked cfg env e s inkCanvas stroke) stroke)
      as (s' & E & G1 & G2 & G3 & G4 & G5 & G6 & G7).
    { rewrite F1. exact Hn. }
    exists s', [snapStroke env stroke].
    split; [congruence|]. split; [|auto].
    unfold ink. rewrite G5, F7, Hi. simpl. rewrite <- app_assoc. reflexivity.
  - exists (inked cfg env e s inkCanvas stroke), [].
    split; [exact Hd|]. split; [|auto].
    unfold ink. rewrite F7, Hi. simpl. rewrite app_nil_r. reflexivity.
Qed.

(** The hit test of a sample reads the sample in the 0-100 space of the
    letter. *)
Section HitTest.

Context {C : Canvas2D}.
Variable onPath : Path2D -> Q -> Q -> Prop.
Hypothesis Hcovers : stroke_covers_path onPath.
Hypothesis Hnear : stroke_near_path onPath.

Variables (w h dpr : Q).
Hypothesis Hw : 0 < w.
Hypothesis Hh : 0 < h.
Hypothesis Hdpr : 0 < dpr.

Lemma hitTest_on_path (p2d : Path2D) (p : Point) :
  onPath p2d (x p * 100 / w) (y p * 100 / h) ->
  hitTest p2d w h dpr p = true.
Proof.
  intro H. unfold hitTest.
  apply (Hcovers p2d (w * dpr / 100) (h * dpr / 100) 24 (x p * dpr) (y p * dpr)
                 (x p * 100 / w) (y p * 100 / h)); try exact H.
  - apply Qlt_shift_div_l; nra.
  - apply Qlt_shift_div_l; nra.
  - reflexivity.
  - field. lra.
  - field. lra.
Qed.

Lemma hitTest_far (p2d : Path2D) (p : Point) :
  (forall u v, onPath p2d u v ->
               12 * 12 < hypot2 (x p * 100 / w - u) (y p * 100 / h - v)) ->
  hitTest p2d w h dpr p = false.
Proof.
  intro H. unfold hitTest.
  destruct (isPointInStroke p2d (w * dpr / 100) (h * dpr / 100) 24
                            (x p * dpr) (y p * dpr)) eqn:E; [|reflexivity].
  apply Hnear in E.
  - destruct E as (u & v & Hon & Hd).
    specialize (H u v Hon).
    assert (Ex : x p * dpr / (w * dpr / 100) == x p * 100 / w) by (field; lra).
    assert (Ey : y p * dpr / (h * dpr / 100) == y p * 100 / h) by (field; lra).
    unfold hypot2 in *. rewrite Ex, Ey in Hd.
    assert (E24 : 24 / 2 * (24 / 2) == 12 * 12) by reflexivity.
    rewrite E24 in Hd. exfalso. apply (Qlt_not_le _ _ H Hd).
  - apply Qlt_shift_div_l; nra.
  - apply Qlt_shift_div_l; nra.
  - reflexivity.
Qed.

End HitTest.

Lemma num_or_pos (v d : Q) : 0 <= v -> 0 < d -> 0 < num_or v d.
Proof.
  intros Hv Hd. unfold num_or.
  destruct (Qeq_bool v 0) eqn:E; [exact Hd|].
  apply Qeq_bool_neq in E.
  destruct (Qlt_le_dec 0 v) as [L|L]; [exact L|].
  exfalso. apply E. lra.
Qed.

(** ** The canvas for straight strokes meets the stroke contract *)

Lemma seg_in_stroke_iff (g : Segment) (sx sy lw X Y : Q) :
  seg_in_stroke (Some g) sx sy lw X Y = true <->
  0 < seg_len2 g /\
  0 <= seg_dot g (X / sx) (Y / sy) /\
  seg_dot g (X / sx) (Y / sy) <= seg_len2 g /\
  seg_cross g (X / sx) (Y / sy) * seg_cross g (X / sx) (Y / sy)
  <= (lw / 2) * (lw / 2) * seg_len2 g.
Proof.
  unfold seg_in_stroke.
  rewrite !andb_true_iff, Qlt_bool_iff, !Qle_bool_iff. tauto.
Qed.

Lemma segment_covers : stroke_covers_path (C := SegmentCanvas) seg_onPath.
Proof.
  intros p sx sy lw X Y u v Hsx Hsy Hlw Hon HX HY.
  destruct p as [g|]; [|contradiction].
  destruct Hon as (Hlen & t & Ht0 & Ht1 & Hu & Hv).
  change (seg_in_stroke (Some g) sx sy lw X Y = true).
  apply seg_in_stroke_iff.
  assert (EX : X / sx == u) by (rewrite HX; field; lra).
  assert (EY : Y / sy == v) by (rewrite HY; field; lra).
  split; [exact Hlen|].
  unfold seg_dot, seg_cross, seg_len2, hypot2 in *.
  rewrite EX, EY, Hu, Hv.
  set (ax := x (seg_from g)) in *. set (ay := y (seg_from g)) in *.
  set (dx := x (seg_to g) - ax) in *. set (dy := y (seg_to g) - ay) in *.
  set (L := dx * dx + dy * dy) in *.
  assert (Ed : (ax + t * dx - ax) * dx + (ay + t * dy - ay) * dy == t * L)
    by (unfold L; ring).
  assert (Ec : (ax + t * dx - ax) * dy - (ay + t * dy - ay) * dx == 0) by ring.
  rewrite Ed, Ec.
  repeat split; nra.
Qed.

Lemma segment_near : stroke_near_path (C := SegmentCanvas) seg_onPath.
Proof.
  intros p sx sy lw X Y Hsx Hsy Hlw H.
  destruct p as [g|]; [|discriminate].
  change (seg_in_stroke (Some g) sx sy lw X Y = true) in H.
  apply seg_in_stroke_iff in H. destruct H as (Hlen & Hd0 & Hd1 & Hc).
  set (u := X / sx) in *. set (v := Y / sy) in *.
  set (t := seg_dot g u v / seg_len2 g).
  exists (x (seg_from g) + t * (x (seg_to g) - x (seg_from g))),
         (y (seg_from g) + t * (y (seg_to g) - y (seg_from g))).
  split.
  - simpl. split; [exact Hlen|]. exists t.
    split; [unfold t; apply Qle_shift_div_l; lra|].
    split; [unfold t; apply Qle_shift_div_r; lra|].
    split; reflexivity.
  - unfold t. unfold seg_dot, seg_cross, seg_len2, hypot2 in *.
    set (ax := x (seg_from g)) in *. set (ay := y (seg_from g)) in *.
    set (dx := x (seg_to g) - ax) in *. set (dy := y (seg_to g) - ay) in *.
    assert (E : (u - (ax + ((u - ax) * dx + (v - ay) * dy) / (dx * dx + dy * dy) * dx))
                * (u - (ax + ((u - ax) * dx + (v - ay) * dy) / (dx * dx + dy * dy) * dx))
                + (v - (ay + ((u - ax) * dx + (v - ay) * dy) / (dx * dx + dy * dy) * dy))
                  * (v - (ay + ((u - ax) * dx + (v - ay) * dy) / (dx * dx + dy * dy) * dy))
                == ((u - ax) * dy - (v - ay) * dx) * ((u - ax) * dy - (v - ay) * dx)
                   / (dx * dx + dy * dy)).
    { field. lra. }
    rewrite E. apply Qle_shift_div_r; [exact Hlen|exact Hc].
Qed.

(** ** Traced sessions *)

Lemma after_reachable (evs : list Event) :
  reachable (Some config_A) (after evs).
Proof.
  unfold after.
  destruct (run (LETTER_PATHS "A") env450 evs mount) as [s|] eqn:E.
  - apply (run_reachable (Some config_A) env450 evs mount s).
    + apply reach_mount.
    + exact E.
  - apply reach_mount.
Qed.

Lemma after_down_capturing :
  capturing config_A env450
            (after [InitCanvas; PointerDown (pointerAt 225 (135 # 2))])
            (inkCanvasOf (after [InitCanvas; PointerDown (pointerAt 225 (135 # 2))]))
            stroke_A1.
Proof. unfold capturing. repeat split; vm_compute; reflexivity. Qed.

(** The end-to-end scenario of the letter A: three strokes traced from
    start point to end point complete the letter and report no penalty;
    with a reset after the first stroke they report one. *)
Example trace_A_clean :
  let s := after (InitCanvas :: stroke1_events ++ stroke2_events ++ stroke3_events) in
  activeStrokeIdx s = 3%nat /\ successTriggered s = true /\
  onSuccess_calls s = [false].
Proof. vm_compute. repeat split. Qed.

Example trace_A_reset :
  let s := after (InitCanvas :: stroke1_events ++ [ResetClick]
                             ++ stroke1_events ++ stroke2_events ++ stroke3_events) in
  activeStrokeIdx s = 3%nat /\ mistakes s = 1%nat /\
  onSuccess_calls s = [true].
Proof. vm_compute. repeat split. Qed.

(** C10.  In every reachable state of a session the active-stroke index is
    between 0 and the number of strokes.  Mounting, a letter change and a
    reset set it to 0; completing a stroke adds exactly 1 and does nothing
    when the index is already the number of strokes; an event changes it in
    no other way: a reset click sets it to 0, a pointer-down or pointer-move
    that completes the active stroke adds 1, everything else keeps it. *)
Theorem activeStrokeIdx_bounded {C : Canvas2D} (cfg : LetterPathConfig) (s : Card) :
  reachable (Some cfg) s ->
  (0 <= activeStrokeIdx s <= List.length (strokes cfg))%nat /\
  activeStrokeIdx mount = 0%nat /\
  (forall s0, activeStrokeIdx (letterChanged s0) = 0%nat) /\
  (forall env, activeStrokeIdx (handleReset (Some cfg) env s) = 0%nat) /\
  (forall env,
      (activeStrokeIdx s < List.length (strokes cfg))%nat ->
      exists s', completeStroke (Some cfg) env s = Ok s' /\
                 activeStrokeIdx s' = (activeStrokeIdx s + 1)%nat) /\
  (forall env,
      activeStrokeIdx s = List.length (strokes cfg) ->
      completeStroke (Some cfg) env s = Ok s) /\
  (forall env ev s',
      handle (Some cfg) env ev s = Ok s' ->
      activeStrokeIdx s' = activeStrokeIdx s \/
      (ev = ResetClick /\ activeStrokeIdx s' = 0%nat) \/
      ((exists e, ev = PointerDown e \/ ev = PointerMove e) /\
       (activeStrokeIdx s < List.length (strokes cfg))%nat /\
       activeStrokeIdx s' = (activeStrokeIdx s + 1)%nat)).
Proof.
  intro R. destruct (reachable_invariant cfg s R) as (I1 & _).
  split; [lia|]. split; [reflexivity|].
  split; [intro s0; apply (letterChanged_fields s0)|].
  split; [intro env; apply (handleReset_fields (Some cfg) env s)|].
  split.
  { intros env Hlt.
    destruct (nth_error (strokes cfg) (activeStrokeIdx s)) as [stroke|] eqn:Hn.
    - destruct (completeStroke_advance cfg env s stroke Hn) as (s' & E & F & _).
      exists s'. auto.
    - apply nth_error_None in Hn. lia. }
  split.
  { intros env Heq. apply completeStroke_guard. lia. }
  intros env ev s' H.
  destruct (handle_transition cfg env ev s s' H)
    as [Q1 _ _ _|T1 _ _ T4 T5 _ _ _ _|R1 _ _ R4].
  - left. exact Q1.
  - right. right. auto.
  - right. left. split; [exact R1|].
    subst s'. apply (handleReset_fields (Some cfg) env s).
Qed.


(** C4.  In every reachable state of a letter that has strokes, a reset
    adds exactly 1 to [mistakes], sets the active-stroke index to 0, clears
    [successTriggered] and empties the ink, whatever the progress was.  The
    Reset button is enabled exactly while the level is active and a stroke
    remains; a click on it runs the reset when it is enabled and nothing
    otherwise. *)
Theorem reset_spec {C : Canvas2D} (cfg : LetterPathConfig) (env : Env) (s : Card) :
  reachable (Some cfg) s ->
  strokes cfg <> [] ->
  let s' := handleReset (Some cfg) env s in
  (mistakes s' = (mistakes s + 1)%nat /\
   activeStrokeIdx s' = 0%nat /\
   successTriggered s' = false /\
   ink s' = []) /\
  (resetDisabled env s = false <->
   isActive env = true /\
   (activeStrokeIdx s < List.length (strokes cfg))%nat) /\
  (resetDisabled env s = false ->
   handle (Some cfg) env ResetClick s = Ok s') /\
  (resetDisabled env s = true ->
   handle (Some cfg) env ResetClick s = Ok s).
Proof.
  intros R Hne s'.
  destruct (reachable_invariant cfg s R) as (I1 & I2 & I3 & I4).
  destruct (handleReset_fields (Some cfg) env s) as (F1 & F2 & F3 & F4 & F5 & _).
  split; [subst s'; auto|].
  split.
  - unfold resetDisabled. rewrite orb_false_iff, negb_false_iff.
    split.
    + intros [Ha Hs]. split; [exact Ha|]. apply I4; assumption.
    + intros [Ha Hlt]. split; [exact Ha|].
      destruct (successTriggered s); [|reflexivity].
      specialize (I3 eq_refl). lia.
  - split; intro Hd; simpl; rewrite Hd; reflexivity.
Qed.


(** C3.  On a captured pointer move, if the raw pointer position is less
    than 8% of the surface width away from the end point of the active
    stroke, the stroke completes: the capture halts, the index advances by
    one and the stroke is snapped onto the ink, whichever samples were
    accepted.  If the distance is 8% of the width or more, the move leaves
    the capture running and the index as it is. *)
Theorem stroke_completes_near_end {C : Canvas2D} (cfg : LetterPathConfig)
        (env : Env) (e : PointerEvent) (s : Card)
        (inkCanvas : InkCanvas) (stroke : Stroke) :
  capturing cfg env s inkCanvas stroke ->
  let w := rect_width (canvasRect env) in
  let h := rect_height (canvasRect env) in
  let endPt := getPoint (stroke_end stroke) w h in
  let d2 := hypot2 (x (rawPoint env e) - x endPt) (y (rawPoint env e) - y endPt) in
  let stamps := map (stamp (ink_scale inkCanvas) w) (accepted env e s stroke) in
  (0 < w -> d2 < (w * (8 # 100)) * (w * (8 # 100)) ->
   exists s',
     draw (Some cfg) env e s = Ok s' /\
     isDrawingRef s' = false /\ lastPosRef s' = None /\
     activeStrokeIdx s' = (activeStrokeIdx s + 1)%nat /\
     inkCanvasRef s' =
       Some (paint [snapStroke env stroke] (paint stamps inkCanvas))) /\
  ((w * (8 # 100)) * (w * (8 # 100)) <= d2 ->
   exists s',
     draw (Some cfg) env e s = Ok s' /\
     isDrawingRef s' = true /\
     activeStrokeIdx s' = activeStrokeIdx s /\
     inkCanvasRef s' = Some (paint stamps inkCanvas)).
Proof.
  intros Hc w h endPt d2 stamps.
  pose proof (draw_capturing cfg env e s inkCanvas stroke Hc) as Hd.
  destruct (inked_fields cfg env e s inkCanvas stroke)
    as (F1 & F2 & F3 & F4 & F5 & F6 & F7).
  destruct Hc as (Hdr & Ha & Hs & Hi & Hn).
  split.
  - intros Hw Hlt.
    assert (Hnear : nearEnd env e stroke = true).
    { unfold nearEnd. apply hypot_lt_iff. split; [|exact Hlt].
      fold w. lra. }
    rewrite Hnear in Hd.
    destruct (completeStroke_advance cfg env (inked cfg env e s inkCanvas stroke) stroke)
      as (s' & E & G1 & G2 & G3 & G4 & G5 & G6 & G7).
    { rewrite F1. exact Hn. }
    exists s'. rewrite Hd, E, G1, G5, F1, F7. auto.
  - intro Hge.
    assert (Hfar : nearEnd env e stroke = false).
    { unfold nearEnd. apply hypot_lt_false_iff. right. exact Hge. }
    rewrite Hfar in Hd.
    exists (inked cfg env e s inkCanvas stroke).
    rewrite Hd, F1, F4, F7. auto.
Qed.

(** C8.  On every captured pointer move, zero-length ones included, the
    tested points are the [n + 1] points evenly spaced from the previous raw
    point to the current one, both included, where [n] is
    [ceil(distance / 2)]; consecutive ones are at most 2 apart.  All of them
    go through the hit test: the ink gains the stamps of those that pass. *)
Theorem move_is_interpolated {C : Canvas2D} (cfg : LetterPathConfig)
        (env : Env) (e : PointerEvent) (s : Card)
        (inkCanvas : InkCanvas) (stroke : Stroke) :
  capturing cfg env s inkCanvas stroke ->
  let last := lastPoint env e s in
  let cur := rawPoint env e in
  let n := sample_steps last cur in
  let pts := samples last cur in
  (forall k : nat,
      (n <= k)%nat <->
      hypot2 (x cur - x last) (y cur - y last)
      <= (2 * inject_Z (Z.of_nat k)) * (2 * inject_Z (Z.of_nat k))) /\
  List.length pts = S n /\
  (exists p q, nth_error pts 0 = Some p /\ point_eq p last /\
               nth_error pts n = Some q /\ point_eq q cur) /\
  (forall i, (i < n)%nat ->
     exists p q,
       nth_error pts i = Some p /\ nth_error pts (S i) = Some q /\
       x q - x p == (x cur - x last) / inject_Z (Z.of_nat n) /\
       y q - y p == (y cur - y last) / inject_Z (Z.of_nat n) /\
       hypot2 (x q - x p) (y q - y p) <= 2 * 2) /\
  exists s' tail,
    draw (Some cfg) env e s = Ok s' /\
    ink s' =
      ink s
      ++ map (stamp (ink_scale inkCanvas) (rect_width (canvasRect env)))
             (filter (hitTest (newPath2D (path stroke))
                              (rect_width (canvasRect env))
                              (rect_height (canvasRect env))
                              (num_or (devicePixelRatio env) 1))
                     pts)
      ++ tail.
Proof.
  intros Hc last cur n pts.
  split; [intro k; apply ceil_half_hypot_spec|].
  split; [apply samples_length|].
  split.
  { destruct (sample_first last cur) as (p & Hp & Ep).
    destruct (sample_final last cur) as (q & Hq & Eq).
    exists p, q. auto. }
  split; [intros i Hi; apply sample_spacing; exact Hi|].
  destruct (draw_ink cfg env e s inkCanvas stroke Hc) as (s' & tail & Hd & Hi & _).
  exists s', tail. split; [exact Hd|exact Hi].
Qed.



(** Where width x dpr is not an integer the ink canvas holds the truncated
    size, which never equals the computed one: an initialization on an
    unchanged layout then clears the ink all the same. *)
Example initCanvas_fractional_size :
  let s := match run (LETTER_PATHS "A") env450_dpr125
                     (InitCanvas :: stroke1_events) mount with
           | Ok s => s
           | TypeError => mount
           end in
  option_map ink_width (inkCanvasRef s) = Some 562%Z /\
  ink s <> [] /\
  option_map ink_width (inkCanvasRef (initCanvas (Some config_A) env450_dpr125 s))
  = Some 562%Z /\
  ink (initCanvas (Some config_A) env450_dpr125 s) = [].
Proof.
  vm_compute. repeat split. discriminate.
Qed.

(** C6 (evidence).  For a letter without geometry the render pass and the
    initialization return at their guard, but a pointer-down on an active
    surface that has not succeeded, and the hand-guide condition of the
    rendered markup, raise [TypeError]; so they do for the letter "B" on a
    freshly mounted, active surface. *)
Theorem unknown_letter_pointer_down_raises {C : Canvas2D} :
  LETTER_PATHS "B" = None /\
  (forall idx env s, renderFrame None idx env s = s) /\
  (forall env s, initCanvas None env s = s) /\
  (forall env e s,
      startDrawing None env e s =
        if negb (isActive env) || successTriggered s then Ok s else TypeError) /\
  (forall env s,
      handGuideShown None env s =
        if negb (successTriggered s) && isActive env
        then TypeError else Ok false) /\
  startDrawing (LETTER_PATHS "B") env450 (pointerAt 225 225) mount = TypeError /\
  handGuideShown (LETTER_PATHS "B") env450 mount = TypeError.
Proof. repeat split. Qed.

(** The rating of [finishGame] as a step function of its [penalties]. *)
Lemma finalStars_steps (p : nat) :
  finalStars p =
    if (p =? 0)%nat then 3%nat
    else if (p <=? 2)%nat then 2%nat
    else if (p <=? 5)%nat then 1%nat
    else 0%nat.
Proof.
  unfold finalStars.
  destruct p as [|[|[|[|[|[|p]]]]]]; reflexivity.
Qed.

(** With the two levels of [LEVELS], the rating only sees the penalty of
    the first level, while both are counted. *)
Lemma session_rating (first second : bool) :
  stars (playSession [first; second])
  = finalStars (if first then 1 else 0)%nat /\
  penalties (playSession [first; second]) = penaltyCount [first; second].
Proof. destruct first, second; split; reflexivity. Qed.

(** C9 (evidence).  A game in which the letter A is traced without a reset
    and the letter a with one ends with one penalty counted and three
    stars, where the step function of the penalty count gives two: the
    rating is computed from the penalties of the render in which the last
    level's success handler was created. *)
Theorem last_level_penalty_not_rated :
  exists w,
    runWorld session_clean_then_reset World_init = Ok w /\
    app w = playSession [false; true] /\
    gameState (app w) = FINISHED /\
    penalties (app w) = penaltyCount [false; true] /\
    penalties (app w) = 1%nat /\
    stars (app w) = 3%nat /\
    finalStars (penalties (app w)) = 2%nat.
Proof. eexists. split; [vm_compute; reflexivity|]. repeat split. Qed.

(** ** Instances of the theorems on traced sessions *)

Lemma activeStrokeIdx_bounded_witness :
  reachable (Some config_A) (after (InitCanvas :: stroke1_events)) /\
  (0 <= activeStrokeIdx (after (InitCanvas :: stroke1_events))
   <= List.length (strokes config_A))%nat.
Proof.
  split.
  - apply after_reachable.
  - exact (proj1 (activeStrokeIdx_bounded config_A
                    (after (InitCanvas :: stroke1_events))
                    (after_reachable _))).
Defined.


Lemma reset_spec_witness :
  reachable (Some config_A) (after (InitCanvas :: stroke1_events)) /\
  strokes config_A <> [] /\
  mistakes (handleReset (Some config_A) env450
                        (after (InitCanvas :: stroke1_events))) = 1%nat /\
  activeStrokeIdx (handleReset (Some config_A) env450
                               (after (InitCanvas :: stroke1_events))) = 0%nat.
Proof.
  split; [apply after_reachable|].
  split; [discriminate|].
  pose proof (proj1 (reset_spec config_A env450
                       (after (InitCanvas :: stroke1_events))
                       (after_reachable _)
                       ltac:(discriminate))) as H.
  split; [exact (proj1 H)|exact (proj1 (proj2 H))].
Defined.

Lemma stroke_completes_near_end_witness :
  capturing config_A env450
            (after [InitCanvas; PointerDown (pointerAt 225 (135 # 2))])
            (inkCanvasOf (after [InitCanvas; PointerDown (pointerAt 225 (135 # 2))]))
            stroke_A1 /\
  exists s',
    draw (Some config_A) env450 (pointerAt 90 (765 # 2))
         (after [InitCanvas; PointerDown (pointerAt 225 (135 # 2))]) = Ok s' /\
    isDrawingRef s' = false /\ activeStrokeIdx s' = 1%nat.
Proof.
  split; [apply after_down_capturing|].
  destruct (proj1 (stroke_completes_near_end config_A env450
                     (pointerAt 90 (765 # 2)) _ _ _ after_down_capturing))
    as (s' & Hd & Hi & _ & Hx & _).
  - vm_compute. reflexivity.
  - vm_compute. reflexivity.
  - exists s'. split; [exact Hd|]. split; [exact Hi|exact Hx].
Defined.

Lemma move_is_interpolated_witness :
  capturing config_A env450
            (after [InitCanvas; PointerDown (pointerAt 225 (135 # 2))])
            (inkCanvasOf (after [InitCanvas; PointerDown (pointerAt 225 (135 # 2))]))
            stroke_A1 /\
  List.length
    (samples (lastPoint env450 (pointerAt 225 (175 # 2))
                        (after [InitCanvas; PointerDown (pointerAt 225 (135 # 2))]))
             (rawPoint env450 (pointerAt 225 (175 # 2))))
  = 11%nat.
Proof.
  split; [apply after_down_capturing|].
  exact (proj1 (proj2 (move_is_interpolated config_A env450
                         (pointerAt 225 (175 # 2)) _ _ _ after_down_capturing))).
Defined.




(** ** Further properties of the tracing surface *)

Section SurfaceFacts.

Context {C : Canvas2D}.
Variable cfg : LetterPathConfig.

Lemma draw_total env e s :
  capture_invariant cfg s -> exists s', draw (Some cfg) env e s = Ok s'.
Proof.
  intro I.
  destruct (isDrawingRef s) eqn:Hd;
    [|exists s; apply draw_not_capturing; auto].
  destruct (isActive env) eqn:Ha;
    [|exists s; apply draw_not_capturing; auto].
  destruct (successTriggered s) eqn:Hs;
    [exists s; apply draw_not_capturing; auto|].
  destruct (inkCanvasRef s) as [i|] eqn:Hi;
    [|exists s; apply draw_not_capturing; auto].
  destruct (nth_error (strokes cfg) (activeStrokeIdx s)) as [stroke|] eqn:Hn.
  - assert (Hc : capturing cfg env s i stroke) by (unfold capturing; auto).
    rewrite (draw_capturing cfg env e s i stroke Hc).
    destruct (nearEnd env e stroke); [|eexists; reflexivity].
    destruct (inked_fields cfg env e s i stroke) as (F1 & _).
    destruct (completeStroke_advance cfg env (inked cfg env e s i stroke) stroke)
      as (s' & E & _).
    { rewrite F1. exact Hn. }
    exists s'. exact E.
  - apply nth_error_None in Hn. specialize (I Hd). lia.
Qed.

Lemma handle_total env ev s :
  capture_invariant cfg s -> exists s', handle (Some cfg) env ev s = Ok s'.
Proof.
  intro I. destruct ev as [e|e|e|e| |]; unfold handle.
  - unfold startDrawing, bind, defined.
    destruct (negb (isActive env) || successTriggered s); [eexists; reflexivity|].
    destruct (Nat.leb_spec (List.length (strokes cfg)) (activeStrokeIdx s)) as [L|L];
      [eexists; reflexivity|].
    apply draw_total. intros _. exact L.
  - apply draw_total. exact I.
  - eexists; reflexivity.
  - eexists; reflexivity.
  - destruct (resetDisabled env s); eexists; reflexivity.
  - eexists; reflexivity.
Qed.

End SurfaceFacts.

(** X1.  For a letter whose geometry has at least one stroke, no handler of
    the tracing surface raises an error in any reachable state: every
    pointer event, reset click and initialization yields a next state. *)
Theorem handlers_never_raise {C : Canvas2D} (cfg : LetterPathConfig)
        (env : Env) (ev : Event) (s : Card) :
  strokes cfg <> [] ->
  reachable (Some cfg) s ->
  exists s', handle (Some cfg) env ev s = Ok s'.
Proof.
  intros Hne R. apply handle_total.
  apply reachable_capture_invariant; assumption.
Qed.

Lemma handlers_never_raise_witness :
  strokes config_A <> [] /\
  reachable (Some config_A) (after (InitCanvas :: stroke1_events)) /\
  exists s', handle (Some config_A) env450 (PointerMove (pointerAt 10 10))
                    (after (InitCanvas :: stroke1_events)) = Ok s'.
Proof.
  split; [discriminate|]. split; [apply after_reachable|].
  apply handlers_never_raise; [discriminate|apply after_reachable].
Defined.

Section TapFacts.

Context {C : Canvas2D}.
Variable cfg : LetterPathConfig.

Lemma startDrawing_near_end env e s inkCanvas stroke :
  isActive env = true -> successTriggered s = false ->
  inkCanvasRef s = Some inkCanvas ->
  nth_error (strokes cfg) (activeStrokeIdx s) = Some stroke ->
  nearEnd env e stroke = true ->
  exists s',
    startDrawing (Some cfg) env e s = Ok s' /\
    activeStrokeIdx s' = (activeStrokeIdx s + 1)%nat /\
    mistakes s' = mistakes s /\
    isDrawingRef s' = false /\
    inkCanvasRef s' <> None /\
    successTriggered s' =
      (List.length (strokes cfg) <=? activeStrokeIdx s + 1)%nat /\
    onSuccess_calls s' =
      onSuccess_calls s ++
      (if (List.length (strokes cfg) <=? activeStrokeIdx s + 1)%nat
       then [(0 <? mistakes s)%nat] else []).
Proof.
  intros Ha Hs Hi Hn Hnear.
  assert (Hlt : (activeStrokeIdx s < List.length (strokes cfg))%nat).
  { apply nth_error_Some. congruence. }
  unfold startDrawing, bind, defined. rewrite Ha, Hs. cbn [negb orb].
  destruct (Nat.leb_spec (List.length (strokes cfg)) (activeStrokeIdx s)) as [L|_];
    [lia|].
  set (s2 := set_lastPos _ (set_isDrawing true s)).
  assert (Hc : capturing cfg env s2 inkCanvas stroke).
  { unfold capturing, s2; simpl. auto. }
  rewrite (draw_capturing cfg env e s2 inkCanvas stroke Hc), Hnear.
  destruct (inked_fields cfg env e s2 inkCanvas stroke)
    as (F1 & F2 & F3 & F4 & F5 & F6 & F7).
  destruct (completeStroke_advance cfg env (inked cfg env e s2 inkCanvas stroke) stroke)
    as (s' & E & G1 & G2 & G3 & G4 & G5 & G6 & G7).
  { rewrite F1. exact Hn. }
  exists s'. rewrite E, G1, G2, G3, G5, G6, G7, F1, F2, F3, F6, F7.
  unfold s2; simpl. rewrite Hs. simpl.
  repeat split; try reflexivity. discriminate.
Qed.

Lemma tapAtEnd_near env stroke e :
  0 < rect_width (canvasRect env) ->
  tapAtEnd env stroke = PointerDown e ->
  nearEnd env e stroke = true.
Proof.
  intros Hw E. inversion E; subst e.
  unfold nearEnd. apply hypot_lt_iff. split; [lra|].
  unfold rawPoint, getPoint, hypot2; simpl.
  set (w := rect_width (canvasRect env)) in *.
  set (a := toPx (x (stroke_end stroke)) w).
  set (b := toPx (y (stroke_end stroke)) (rect_height (canvasRect env))).
  assert (Ea : rect_left (canvasRect env) + a - rect_left (canvasRect env) - a == 0)
    by ring.
  assert (Eb : rect_top (canvasRect env) + b - rect_top (canvasRect env) - b == 0)
    by ring.
  rewrite Ea, Eb. nra.
Qed.

Lemma taps_complete_from env :
  isActive env = true ->
  0 < rect_width (canvasRect env) ->
  forall rest done s,
    strokes cfg = done ++ rest -> rest <> [] ->
    activeStrokeIdx s = List.length done ->
    successTriggered s = false ->
    inkCanvasRef s <> None ->
    exists s',
      run (Some cfg) env (map (tapAtEnd env) rest) s = Ok s' /\
      activeStrokeIdx s' = List.length (strokes cfg) /\
      successTriggered s' = true /\
      mistakes s' = mistakes s /\
      onSuccess_calls s' = onSuccess_calls s ++ [(0 <? mistakes s)%nat].
Proof.
  intros Ha Hw rest.
  induction rest as [|st rest IH]; intros done s Hsplit Hne Hidx Hs Hi;
    [congruence|].
  destruct (inkCanvasRef s) as [i|] eqn:Ei; [|congruence].
  assert (Hn : nth_error (strokes cfg) (activeStrokeIdx s) = Some st).
  { rewrite Hsplit, Hidx, nth_error_app2 by lia.
    rewrite Nat.sub_diag. reflexivity. }
  assert (Hlen : List.length (strokes cfg)
                 = (List.length done + S (List.length rest))%nat).
  { rewrite Hsplit, length_app. reflexivity. }
  destruct (tapAtEnd env st) as [e|e|e|e| |] eqn:Et; try discriminate.
  pose proof (tapAtEnd_near env st e Hw Et) as Hnear.
  destruct (startDrawing_near_end env e s i st Ha Hs Ei Hn Hnear)
    as (s1 & E1 & G1 & G2 & G3 & G4 & G5 & G6).
  cbn [map run]. rewrite Et. cbn [handle]. rewrite E1. cbn [bind].
  destruct rest as [|st2 rest].
  - cbn [map run]. exists s1.
    assert (Hlast : (List.length (strokes cfg) <=? activeStrokeIdx s + 1)%nat = true).
    { apply Nat.leb_le. simpl in Hlen. lia. }
    rewrite Hlast in G5, G6.
    split; [reflexivity|]. split; [simpl in Hlen; lia|]. auto.
  - assert (Hmore : (List.length (strokes cfg) <=? activeStrokeIdx s + 1)%nat = false).
    { apply Nat.leb_gt. simpl in Hlen. lia. }
    rewrite Hmore in G5, G6. rewrite app_nil_r in G6.
    destruct (IH (done ++ [st]) s1) as (s' & R & H1 & H2 & H3 & H4).
    + rewrite <- app_assoc. exact Hsplit.
    + discriminate.
    + rewrite G1, Hidx, length_app. reflexivity.
    + exact G5.
    + exact G4.
    + exists s'. rewrite R, H3, H4, G2, G6. auto.
Qed.

End TapFacts.

(** X2.  Tracing is not needed to complete a letter: on an active,
    initialised surface of positive width with no stroke completed yet, one
    pointer-down on the end point of each stroke in turn completes the
    letter, and [onSuccess] is called once with [mistakes > 0]. *)
Theorem taps_complete_letter {C : Canvas2D} (cfg : LetterPathConfig)
        (env : Env) (s : Card) :
  isActive env = true ->
  0 < rect_width (canvasRect env) ->
  strokes cfg <> [] ->
  activeStrokeIdx s = 0%nat ->
  successTriggered s = false ->
  inkCanvasRef s <> None ->
  exists s',
    run (Some cfg) env (map (tapAtEnd env) (strokes cfg)) s = Ok s' /\
    activeStrokeIdx s' = List.length (strokes cfg) /\
    successTriggered s' = true /\
    onSuccess_calls s' = onSuccess_calls s ++ [(0 <? mistakes s)%nat].
Proof.
  intros Ha Hw Hne Hidx Hs Hi.
  destruct (taps_complete_from cfg env Ha Hw (strokes cfg) [] s)
    as (s' & R & H1 & H2 & _ & H4); auto.
  exists s'. auto.
Qed.

Lemma taps_complete_letter_witness :
  exists s',
    run (Some config_A) env450 (map (tapAtEnd env450) (strokes config_A))
        (after [InitCanvas]) = Ok s' /\
    activeStrokeIdx s' = List.length (strokes config_A) /\
    successTriggered s' = true /\
    onSuccess_calls s' = onSuccess_calls (after [InitCanvas]) ++ [false].
Proof.
  apply (taps_complete_letter config_A env450 (after [InitCanvas])).
  - reflexivity.
  - vm_compute. reflexivity.
  - discriminate.
  - vm_compute. reflexivity.
  - vm_compute. reflexivity.
  - vm_compute. discriminate.
Defined.

Section InkFacts.

Context {C : Canvas2D}.
Variable cfg : LetterPathConfig.

Lemma draw_ink_grows env e s s' :
  draw (Some cfg) env e s = Ok s' ->
  inkGeometry s' = inkGeometry s /\ exists added, ink s' = ink s ++ added.
Proof.
  intro H.
  destruct (draw_cases cfg env e s s' H) as [->|(i & stroke & Hc & [->|Hs'])].
  - split; [reflexivity|]. exists []. rewrite app_nil_r. reflexivity.
  - destruct (inked_fields cfg env e s i stroke) as (_ & _ & _ & _ & _ & _ & F7).
    destruct Hc as (_ & _ & _ & Hi & _).
    unfold ink, inkGeometry. rewrite F7, Hi. simpl.
    split; [reflexivity|]. eexists. reflexivity.
  - destruct (inked_fields cfg env e s i stroke) as (F1 & _ & _ & _ & _ & _ & F7).
    destruct Hc as (_ & _ & _ & Hi & Hn).
    destruct (completeStroke_advance cfg env (inked cfg env e s i stroke) stroke)
      as (s'' & E & _ & _ & _ & _ & G5 & _).
    { rewrite F1. exact Hn. }
    rewrite E in Hs'. inversion Hs'; subst s''.
    unfold ink, inkGeometry. rewrite G5, F7, Hi. simpl.
    split; [reflexivity|]. rewrite <- app_assoc. eexists. reflexivity.
Qed.

End InkFacts.

Lemma pointer_events_keep_ink_aux {C : Canvas2D} (cfg : LetterPathConfig)
      (env : Env) (ev : Event) (s s' : Card) :
  isPointerEvent ev = true ->
  handle (Some cfg) env ev s = Ok s' ->
  inkGeometry s' = inkGeometry s /\ exists added, ink s' = ink s ++ added.
Proof.
  intros Hp H. destruct ev as [e|e|e|e| |]; try discriminate; unfold handle in H.
  - unfold startDrawing, bind, defined in H.
    destruct (negb (isActive env) || successTriggered s).
    { inversion H; subst. split; [reflexivity|].
      exists []. rewrite app_nil_r. reflexivity. }
    destruct (List.length (strokes cfg) <=? activeStrokeIdx s)%nat.
    { inversion H; subst. split; [reflexivity|].
      exists []. rewrite app_nil_r. reflexivity. }
    apply (draw_ink_grows cfg env e _ s') in H. exact H.
  - apply (draw_ink_grows cfg env e s s' H).
  - inversion H; subst. split; [reflexivity|].
    exists []. rewrite app_nil_r. reflexivity.
  - inversion H; subst. split; [reflexivity|].
    exists []. rewrite app_nil_r. reflexivity.
Qed.

(** X3.  A pointer event never removes ink nor resizes the ink canvas: after
    a pointer-down, move, up or leave the ink is the ink before, followed
    by what the event painted. *)
Theorem pointer_events_keep_ink {C : Canvas2D} (cfg : LetterPathConfig)
        (env : Env) (ev : Event) (s s' : Card) :
  isPointerEvent ev = true ->
  handle (Some cfg) env ev s = Ok s' ->
  inkGeometry s' = inkGeometry s /\ exists added, ink s' = ink s ++ added.
Proof. apply pointer_events_keep_ink_aux. Qed.

Lemma pointer_events_keep_ink_witness :
  isPointerEvent (PointerMove (pointerAt 90 (765 # 2))) = true /\
  exists added,
    ink (after [InitCanvas; PointerDown (pointerAt 225 (135 # 2));
                PointerMove (pointerAt 90 (765 # 2))])
    = ink (after [InitCanvas; PointerDown (pointerAt 225 (135 # 2))]) ++ added.
Proof.
  split; [reflexivity|].
  refine (proj2 (pointer_events_keep_ink config_A env450
                   (PointerMove (pointerAt 90 (765 # 2)))
                   (after [InitCanvas; PointerDown (pointerAt 225 (135 # 2))])
                   _ eq_refl _)).
  vm_compute. reflexivity.
Defined.

(** X4.  Once a capture has ended, moving the pointer does nothing: a
    pointer-up or pointer-leave followed by any number of pointer-moves
    leaves the state the pointer-up produced, which differs from the state
    before only in the capture refs.  This holds with or without letter
    geometry. *)
Theorem moves_after_up_do_nothing {C : Canvas2D} (o : option LetterPathConfig)
        (env : Env) (e : PointerEvent) (moves : list PointerEvent) (s : Card) :
  run o env (PointerUp e :: map PointerMove moves) s = Ok (stopDrawing e s) /\
  run o env (PointerLeave e :: map PointerMove moves) s = Ok (stopDrawing e s) /\
  isDrawingRef (stopDrawing e s) = false /\
  lastPosRef (stopDrawing e s) = None /\
  activeStrokeIdx (stopDrawing e s) = activeStrokeIdx s /\
  mistakes (stopDrawing e s) = mistakes s /\
  successTriggered (stopDrawing e s) = successTriggered s /\
  inkCanvasRef (stopDrawing e s) = inkCanvasRef s /\
  screen (stopDrawing e s) = screen s /\
  onSuccess_calls (stopDrawing e s) = onSuccess_calls s.
Proof.
  assert (M : forall t, isDrawingRef t = false ->
                        run o env (map PointerMove moves) t = Ok t).
  { induction moves as [|m moves IH]; intros t Ht; [reflexivity|].
    cbn [map run handle]. unfold draw. rewrite Ht. cbn [negb orb bind].
    apply IH. exact Ht. }
  split; [cbn [run handle bind]; apply M; reflexivity|].
  split; [cbn [run handle bind]; apply M; reflexivity|].
  repeat split.
Qed.

(** X5.  An inactive surface ignores the pointer and the Reset button: with
    [isActive] false, any sequence of pointer-downs, pointer-moves and reset
    clicks leaves the state exactly as it was, with or without letter
    geometry. *)
Theorem inactive_surface_ignores_input {C : Canvas2D}
        (o : option LetterPathConfig) (env : Env) (evs : list Event) (s : Card) :
  isActive env = false ->
  forallb isGatedEvent evs = true ->
  run o env evs s = Ok s.
Proof.
  intro Ha. induction evs as [|ev evs IH]; intro Hg; [reflexivity|].
  cbn [forallb] in Hg. apply andb_true_iff in Hg. destruct Hg as [Hev Hevs].
  assert (E : handle o env ev s = Ok s).
  { destruct ev as [e|e|e|e| |]; try discriminate; unfold handle.
    - unfold startDrawing. rewrite Ha. reflexivity.
    - unfold draw. rewrite Ha. cbn [negb]. rewrite orb_true_r. reflexivity.
    - unfold resetDisabled. rewrite Ha. reflexivity. }
  cbn [run]. rewrite E. cbn [bind]. apply IH. exact Hevs.
Qed.

Lemma inactive_surface_ignores_input_witness :
  run (Some config_A)
      {| isActive := false; canvasRect := canvasRect env450;
         containerRect := containerRect env450; devicePixelRatio := 2 |}
      [PointerDown (pointerAt 90 (765 # 2)); ResetClick;
       PointerMove (pointerAt 90 (765 # 2))]
      (after (InitCanvas :: stroke1_events))
  = Ok (after (InitCanvas :: stroke1_events)).
Proof.
  apply inactive_surface_ignores_input; reflexivity.
Defined.

(** X6.  Within a letter the mistake counter never decreases, and only an
    effective click on Reset changes it, by exactly one: every other event
    leaves it as it is. *)
Theorem mistakes_count_resets {C : Canvas2D} (cfg : LetterPathConfig)
        (env : Env) (ev : Event) (s s' : Card) :
  handle (Some cfg) env ev s = Ok s' ->
  (mistakes s' = mistakes s \/
   (ev = ResetClick /\ resetDisabled env s = false /\
    mistakes s' = (mistakes s + 1)%nat)) /\
  (ev = ResetClick -> resetDisabled env s = false ->
   mistakes s' = (mistakes s + 1)%nat).
Proof.
  intro H. split.
  - destruct (handle_transition cfg env ev s s' H)
      as [_ Q2 _ _|_ _ _ _ _ T6 _ _ _|R1 R2 R3 R4].
    + left. exact Q2.
    + left. exact T6.
    + right. split; [exact R1|]. split.
      * unfold resetDisabled. rewrite R2, R3. reflexivity.
      * subst s'. apply (handleReset_fields (Some cfg) env s).
  - intros -> Hd. unfold handle in H. rewrite Hd in H.
    assert (E : s' = handleReset (Some cfg) env s) by congruence. subst s'.
    apply (handleReset_fields (Some cfg) env s).
Qed.

Lemma mistakes_count_resets_witness :
  mistakes (after (InitCanvas :: stroke1_events ++ [ResetClick])) = 1%nat.
Proof.
  refine (proj2 (mistakes_count_resets config_A env450 ResetClick
                   (after (InitCanvas :: stroke1_events))
                   (after (InitCanvas :: stroke1_events ++ [ResetClick])) _)
                eq_refl _).
  - vm_compute. reflexivity.
  - vm_compute. reflexivity.
Defined.

(** X7.  A point of the 0-100 space of the letter is drawn inside the
    surface: its pixel coordinates are between 0 and the width, and between
    0 and the height. *)
Theorem getPoint_in_surface (p : Point) (w h : Q) :
  0 <= w -> 0 <= h ->
  0 <= x p <= 100 -> 0 <= y p <= 100 ->
  0 <= x (getPoint p w h) <= w /\ 0 <= y (getPoint p w h) <= h.
Proof.
  intros Hw Hh [Hx0 Hx1] [Hy0 Hy1].
  unfold getPoint, toPx; simpl.
  assert (Ex : x p / 100 * w == x p * w / 100) by field.
  assert (Ey : y p / 100 * h == y p * h / 100) by field.
  rewrite Ex, Ey.
  repeat split.
  - apply Qle_shift_div_l; [reflexivity|]. nra.
  - apply Qle_shift_div_r; [reflexivity|]. nra.
  - apply Qle_shift_div_l; [reflexivity|]. nra.
  - apply Qle_shift_div_r; [reflexivity|]. nra.
Qed.

Lemma getPoint_in_surface_witness :
  0 <= x (getPoint {| x := 20; y := 85 |} 450 450) <= 450 /\
  0 <= y (getPoint {| x := 20; y := 85 |} 450 450) <= 450.
Proof.
  apply getPoint_in_surface; simpl; try split; discriminate.
Defined.

Lemma canvas_dim_whole (dflt z : Z) (v : Q) :
  v == inject_Z z -> (0 <= z <= 2147483647)%Z -> canvas_dim dflt v = z.
Proof.
  intros E Hz. unfold canvas_dim.
  assert (Hv : 0 <= v).
  { rewrite E. change 0 with (inject_Z 0). rewrite <- Zle_Qle. lia. }
  apply Qle_bool_iff in Hv. rewrite Hv.
  assert (Ef : Qfloor v = z).
  { apply Z.le_antisymm.
    - rewrite <- (Qfloor_Z z). apply Qfloor_resp_le. rewrite E. apply Qle_refl.
    - rewrite <- (Qfloor_Z z). apply Qfloor_resp_le. rewrite E. apply Qle_refl. }
  rewrite Ef, Z.mod_small by lia.
  destruct (Z.leb_spec z 2147483647); [reflexivity|lia].
Qed.

Lemma initCanvas_inkCanvas {C : Canvas2D} (cfg : LetterPathConfig) env s :
  inkCanvasRef (initCanvas (Some cfg) env s) =
    Some (if negb (Qeq_bool (inject_Z (ink_width (inkCanvasOf s))) (physicalWidth env))
             || negb (Qeq_bool (inject_Z (ink_height (inkCanvasOf s))) (physicalHeight env))
          then {| ink_width := canvas_dim 300 (physicalWidth env);
                  ink_height := canvas_dim 150 (physicalHeight env);
                  ink_scale := num_or (devicePixelRatio env) 1;
                  ink_ops := [] |}
          else inkCanvasOf s).
Proof.
  unfold initCanvas. cbv zeta.
  match goal with
  | |- context [renderFrame ?o ?i ?e ?t] =>
      destruct (renderFrame_screen_only o i e t) as [ops Er]; rewrite Er
  end.
  reflexivity.
Qed.

Lemma initCanvas_fits {C : Canvas2D} (cfg : LetterPathConfig) env s :
  wholePixels env -> inkFits env (initCanvas (Some cfg) env s).
Proof.
  intros (zw & zh & Ew & Eh & Hw & Hh).
  unfold inkFits. rewrite initCanvas_inkCanvas.
  eexists. split; [reflexivity|].
  destruct (Qeq_bool (inject_Z (ink_width (inkCanvasOf s))) (physicalWidth env)) eqn:Bw;
    destruct (Qeq_bool (inject_Z (ink_height (inkCanvasOf s))) (physicalHeight env)) eqn:Bh;
    cbn [negb orb ink_width ink_height];
    rewrite ?(canvas_dim_whole 300 zw _ Ew Hw), ?(canvas_dim_whole 150 zh _ Eh Hh);
    try (split; [rewrite Ew|rewrite Eh]; reflexivity).
  apply Qeq_bool_iff in Bw, Bh. auto.
Qed.

Lemma initCanvas_keeps_fitting {C : Canvas2D} (cfg : LetterPathConfig) env s :
  inkFits env s ->
  inkCanvasRef (initCanvas (Some cfg) env s) = inkCanvasRef s.
Proof.
  intros (i & Ei & Ew & Eh).
  rewrite initCanvas_inkCanvas. unfold inkCanvasOf. rewrite Ei.
  apply Qeq_bool_iff in Ew, Eh. rewrite Ew, Eh. reflexivity.
Qed.

Lemma inkFits_geometry env s s' :
  inkGeometry s' = inkGeometry s -> inkFits env s -> inkFits env s'.
Proof.
  intros G (i & Ei & Ew & Eh). unfold inkGeometry in G. rewrite Ei in G.
  destruct (inkCanvasRef s') as [i'|] eqn:Ei'; simpl in G; [|discriminate].
  inversion G as [[Gw Gh Gs]].
  exists i'. rewrite Gw, Gh. auto.
Qed.

(** X8.  On a layout whose physical size is a whole number of pixels, the
    first initialization gives the ink canvas that size, every later event
    keeps it so, and from then on only a reset removes ink: after any other
    event, another initialization included, the ink is the ink before
    followed by what the event painted. *)
Theorem ink_persists_on_whole_pixel_layout {C : Canvas2D}
        (cfg : LetterPathConfig) (env : Env) :
  wholePixels env ->
  (forall s, inkFits env (initCanvas (Some cfg) env s)) /\
  (forall ev s s',
      inkFits env s -> handle (Some cfg) env ev s = Ok s' ->
      inkFits env s' /\
      (ev <> ResetClick -> exists added, ink s' = ink s ++ added)).
Proof.
  intro Hwp. split; [intro s; apply initCanvas_fits; exact Hwp|].
  intros ev s s' Hf H.
  destruct (isPointerEvent ev) eqn:Hp.
  - destruct (pointer_events_keep_ink_aux cfg env ev s s' Hp H) as (G & A).
    split; [apply (inkFits_geometry env s s' G Hf)|]. intros _. exact A.
  - destruct ev as [e|e|e|e| |]; try discriminate; unfold handle in H.
    + split; [|congruence].
      destruct (resetDisabled env s);
        [assert (s' = s) by congruence; subst; exact Hf|].
      assert (E : s' = handleReset (Some cfg) env s) by congruence. subst s'.
      destruct Hf as (i & Ei & Ew & Eh).
      unfold handleReset. cbv zeta.
      match goal with
      | |- context [renderFrame ?o ?i ?e ?t] =>
          destruct (renderFrame_screen_only o i e t) as [ops Er]; rewrite Er
      end.
      exists (clearInk i). simpl. rewrite Ei. simpl. auto.
    + assert (E : s' = initCanvas (Some cfg) env s) by congruence. subst s'.
      pose proof (initCanvas_keeps_fitting cfg env s Hf) as K.
      split.
      * destruct Hf as (i & Ei & Ew & Eh). exists i. rewrite K. auto.
      * intros _. exists []. unfold ink. rewrite K, app_nil_r. reflexivity.
Qed.

Lemma ink_persists_on_whole_pixel_layout_witness :
  wholePixels env450 /\
  inkFits env450 (initCanvas (Some config_A) env450 mount).
Proof.
  assert (W : wholePixels env450).
  { exists 900%Z, 900%Z. split; [vm_compute; reflexivity|].
    split; [vm_compute; reflexivity|]. lia. }
  split; [exact W|].
  apply (proj1 (ink_persists_on_whole_pixel_layout config_A env450 W)).
Defined.


(** ** Further properties of the application *)

Lemma fresh_reachable {C : Canvas2D} (o : option LetterPathConfig) :
  reachable o (resetOnLetterChange mount).
Proof.
  change (resetOnLetterChange mount) with (letterChanged mount).
  apply (reach_letter o o mount). apply reach_mount.
Qed.

Lemma renderApp_cases (a : App) (prev sf : option (string * Card)) :
  renderApp a prev = Ok sf ->
  sf = None \/ sf = prev \/
  exists level, sf = Some (letter level, resetOnLetterChange mount).
Proof.
  unfold renderApp, bind, defined.
  destruct (GameState_eqb (gameState a) INTRO);
    [intro H; inversion H; auto|].
  destruct (currentLevel a) as [level|]; [|discriminate].
  destruct prev as [[k s]|].
  - destruct (String.eqb k (letter level)); intro H; inversion H; eauto.
  - intro H; inversion H; eauto.
Qed.

Lemma renderApp_total (a : App) (prev : option (string * Card)) :
  (currentLevelIdx a < List.length LEVELS)%nat ->
  exists sf, renderApp a prev = Ok sf.
Proof.
  intro H. unfold renderApp, bind, defined.
  destruct (GameState_eqb (gameState a) INTRO); [eexists; reflexivity|].
  destruct (currentLevel a) as [level|] eqn:L.
  - destruct prev as [[k s]|]; [destruct (String.eqb k (letter level))|];
      eexists; reflexivity.
  - unfold currentLevel in L. apply nth_error_None in L. lia.
Qed.

Lemma world_surface_reachable {C : Canvas2D} w :
  worldReachable w ->
  forall k s, surface w = Some (k, s) -> reachable (LETTER_PATHS k) s.
Proof.
  induction 1 as [|ev w w' R IH H]; [discriminate|].
  intros k s Hs.
  assert (K : forall a prev sf,
             renderApp a prev = Ok sf -> sf = Some (k, s) ->
             (forall k0 s0, prev = Some (k0, s0) -> reachable (LETTER_PATHS k0) s0) ->
             reachable (LETTER_PATHS k) s).
  { intros a prev sf Hr Hsf Hprev.
    destruct (renderApp_cases a prev sf Hr) as [E|[E|(level & E)]].
    - congruence.
    - apply Hprev. congruence.
    - rewrite Hsf in E. inversion E; subst. apply fresh_reachable. }
  destruct w as [a ts sf0]; cbn [app timers surface] in *.
  destruct ev as [|env ev coin| |]; cbn [worldStep app timers surface] in H.
  - destruct (GameState_eqb (gameState a) INTRO).
    + destruct (renderApp (handleStartGame a) sf0) as [sf|] eqn:Hr;
        cbn [bind] in H; [|discriminate].
      injection H as <-. cbn [surface] in Hs.
      apply (K _ _ _ Hr Hs IH).
    + injection H as <-. apply IH. exact Hs.
  - destruct sf0 as [[k0 s0]|]; [|injection H as <-; discriminate].
    destruct (handle (LETTER_PATHS k0) (cardEnv a env) ev s0) as [s1|] eqn:Hh;
      cbn [bind] in H; [|discriminate].
    match type of H with
    | bind (renderApp ?a1 ?p) _ = _ =>
        destruct (renderApp a1 p) as [sf|] eqn:Hr; cbn [bind] in H; [|discriminate]
    end.
    injection H as <-. cbn [surface] in Hs.
    apply (K _ _ _ Hr Hs).
    intros k1 s2 E. inversion E; subst.
    apply (reach_event _ (cardEnv a env) ev s0 s2); [|exact Hh].
    apply IH. reflexivity.
  - destruct ts as [|render ts]; [injection H as <-; apply IH; exact Hs|].
    destruct (renderApp (levelTimeout render a) sf0) as [sf|] eqn:Hr;
      cbn [bind] in H; [|discriminate].
    injection H as <-. cbn [surface] in Hs.
    apply (K _ _ _ Hr Hs IH).
  - destruct (GameState_eqb (gameState a) FINISHED).
    + destruct (renderApp (restartGame a) sf0) as [sf|] eqn:Hr;
        cbn [bind] in H; [|discriminate].
      injection H as <-. cbn [surface] in Hs.
      apply (K _ _ _ Hr Hs IH).
    + injection H as <-. apply IH. exact Hs.
Qed.

Lemma level_geometry_strokes (a : App) (level : LevelData) :
  currentLevel a = Some level ->
  exists cfg, LETTER_PATHS (letter level) = Some cfg /\ strokes cfg <> [].
Proof.
  unfold currentLevel. intro H.
  destruct (currentLevelIdx a) as [|[|n]]; simpl in H.
  - inversion H; subst. eexists. split; [reflexivity|discriminate].
  - inversion H; subst. eexists. split; [reflexivity|discriminate].
  - destruct n; discriminate.
Qed.

Lemma fold_handleLevelSuccess_idx coin calls a :
  currentLevelIdx (fold_left (fun a b => handleLevelSuccess coin b a) calls a)
  = currentLevelIdx a.
Proof.
  revert a. induction calls as [|b calls IH]; intro a; [reflexivity|].
  cbn [fold_left]. rewrite IH. apply handleLevelSuccess_fields.
Qed.


Lemma finalStars_low (p : nat) : (p <= 1)%nat -> (2 <= finalStars p <= 3)%nat.
Proof. intro H. destruct p as [|[|p]]; [cbn; lia|cbn; lia|lia]. Qed.

Lemma world_step_score {C : Canvas2D} ev w w' :
  world_invariant w -> score_invariant w ->
  (forall k s, surface w = Some (k, s) -> exists cfg, LETTER_PATHS k = Some cfg) ->
  worldStep ev w = Ok w' -> score_invariant w'.
Proof.
  intros (I1 & I2 & I3 & I4 & I5) (S1 & S2 & S3 & S4) Hgeo H.
  destruct w as [a ts sf]; cbn [app timers surface] in *.
  destruct ev as [|env ev coin| |]; cbn [worldStep app timers surface] in H.
  - destruct (GameState_eqb (gameState a) INTRO) eqn:G;
      [|injection H as <-; unfold score_invariant; auto].
    apply GameState_eqb_eq in G.
    destruct (renderApp (handleStartGame a) sf) as [sf'|]; cbn [bind] in H;
      [|discriminate].
    injection H as <-. unfold score_invariant; cbn [app timers].
    unfold handleStartGame; cbn. rewrite G in S1. cbn in S1.
    split; [lia|]. split; [exact S2|].
    split; [intros _; apply S3; congruence|discriminate].
  - destruct sf as [[k s]|]; [|injection H as <-; unfold score_invariant; auto].
    destruct (Hgeo k s eq_refl) as (cfg & Ecfg). rewrite Ecfg in H.
    destruct (handle (Some cfg) (cardEnv a env) ev s) as [s'|] eqn:Hh;
      cbn [bind] in H; [|discriminate].
    destruct (handle_newCalls cfg (cardEnv a env) ev s s' Hh) as [N|(A & b & N)];
      rewrite N in H; cbn [fold_left map] in H.
    + rewrite app_nil_r in H.
      destruct (renderApp a (Some (k, s'))) as [sf'|]; cbn [bind] in H;
        [|discriminate].
      injection H as <-. unfold score_invariant; auto.
    + cbn [isActive cardEnv] in A. apply GameState_eqb_eq in A.
      destruct I2 as [I2|(I2 & _)]; [|congruence]. subst ts.
      destruct (renderApp (handleLevelSuccess coin b a) (Some (k, s'))) as [sf'|];
        cbn [bind] in H; [|discriminate].
      injection H as <-. unfold score_invariant; cbn [app timers List.app].
      rewrite A in S1. cbn in S1.
      assert (Es : stars a = 3%nat) by (apply S3; congruence).
      unfold handleLevelSuccess. destruct b; cbn;
        (split; [lia|]); (split; [constructor; [lia|constructor]|]);
        (split; [intros _; exact Es|discriminate]).
  - destruct ts as [|render ts]; [injection H as <-; unfold score_invariant; auto|].
    destruct I2 as [I2|(G & r & Er & Ei)]; [discriminate|].
    inversion Er; subst r ts.
    destruct (renderApp (levelTimeout render a) sf) as [sf'|]; cbn [bind] in H;
      [|discriminate].
    injection H as <-. unfold score_invariant; cbn [app timers].
    rewrite G in S1. cbn in S1.
    assert (Pr : (penalties render <= currentLevelIdx render)%nat)
      by (inversion S2; assumption).
    assert (Es : stars a = 3%nat) by (apply S3; congruence).
    unfold levelTimeout, finishGame. rewrite Ei.
    destruct (Nat.ltb_spec (currentLevelIdx a) (List.length LEVELS - 1)) as [L|L]; cbn.
    + split; [lia|]. split; [apply Forall_nil|].
      split; [intros _; exact Es|discriminate].
    + simpl in L, I1.
      split; [lia|]. split; [apply Forall_nil|].
      split; [congruence|]. intros _. apply finalStars_low. lia.
  - destruct (GameState_eqb (gameState a) FINISHED) eqn:G;
      [|injection H as <-; unfold score_invariant; auto].
    apply GameState_eqb_eq in G.
    destruct I2 as [I2|(I2 & _)]; [|congruence]. subst ts.
    destruct (renderApp (restartGame a) sf) as [sf'|]; cbn [bind] in H;
      [|discriminate].
    injection H as <-. unfold score_invariant; cbn.
    split; [lia|]. split; [apply Forall_nil|].
    split; [reflexivity|discriminate].
Qed.

Lemma world_reachable_score {C : Canvas2D} w :
  worldReachable w -> score_invariant w.
Proof.
  induction 1 as [|ev w w' R IH H].
  - unfold score_invariant; cbn.
    split; [lia|]. split; [apply Forall_nil|].
    split; [reflexivity|discriminate].
  - apply (world_step_score ev w w'); try assumption.
    + apply world_reachable_invariant. exact R.
    + intros k s Hs.
      destruct (world_reachable_invariant w R) as (_ & _ & _ & I4 & I5).
      assert (G : gameState (app w) <> INTRO).
      { intro G. rewrite (I4 G) in Hs. discriminate. }
      destruct (I5 G) as (level & s0 & L & E). rewrite Hs in E.
      inversion E; subst.
      destruct (level_geometry (app w) level L) as (cfg & Ecfg). eauto.
Qed.




Lemma worldAfter_reachable {C : Canvas2D} (evs : list WorldEvent) :
  worldReachable (worldAfter evs).
Proof.
  unfold worldAfter.
  destruct (runWorld evs World_init) as [w|] eqn:E; [|apply wreach_init].
  apply (runWorld_reachable evs World_init w wreach_init E).
Qed.





Lemma world_step_deer {C : Canvas2D} ev w w' :
  world_invariant w -> deer_invariant (app w) ->
  (forall k s, surface w = Some (k, s) -> exists cfg, LETTER_PATHS k = Some cfg) ->
  worldStep ev w = Ok w' -> deer_invariant (app w').
Proof.
  intros (I1 & I2 & I3 & I4 & I5) D Hgeo H.
  destruct w as [a ts sf]; cbn [app timers surface] in *.
  destruct ev as [|env ev coin| |]; cbn [worldStep app timers surface] in H.
  - destruct (GameState_eqb (gameState a) INTRO) eqn:G;
      [|injection H as <-; exact D].
    apply GameState_eqb_eq in G.
    destruct (renderApp (handleStartGame a) sf) as [sf'|]; cbn [bind] in H;
      [|discriminate].
    injection H as <-. cbn [app]. unfold deer_invariant in *.
    rewrite G in D. exact D.
  - destruct sf as [[k s]|]; [|injection H as <-; exact D].
    destruct (Hgeo k s eq_refl) as (cfg & Ecfg). rewrite Ecfg in H.
    destruct (handle (Some cfg) (cardEnv a env) ev s) as [s'|] eqn:Hh;
      cbn [bind] in H; [|discriminate].
    destruct (handle_newCalls cfg (cardEnv a env) ev s s' Hh) as [N|(A & b & N)];
      rewrite N in H; cbn [fold_left map] in H.
    + destruct (renderApp a (Some (k, s'))) as [sf'|]; cbn [bind] in H;
        [|discriminate].
      injection H as <-. exact D.
    + destruct (renderApp (handleLevelSuccess coin b a) (Some (k, s'))) as [sf'|];
        cbn [bind] in H; [|discriminate].
      injection H as <-. cbn [app].
      simpl in I1.
      unfold deer_invariant, handleLevelSuccess.
      destruct (currentLevelIdx a) as [|[|n]] eqn:En; [| |lia];
        destruct b; cbn; rewrite ?En; reflexivity.
  - destruct ts as [|render ts]; [injection H as <-; exact D|].
    destruct (renderApp (levelTimeout render a) sf) as [sf'|]; cbn [bind] in H;
      [|discriminate].
    injection H as <-. cbn [app].
    unfold deer_invariant, levelTimeout, finishGame.
    destruct (currentLevelIdx render <? List.length LEVELS - 1)%nat; reflexivity.
  - destruct (GameState_eqb (gameState a) FINISHED) eqn:G;
      [|injection H as <-; exact D].
    destruct (renderApp (restartGame a) sf) as [sf'|]; cbn [bind] in H;
      [|discriminate].
    injection H as <-. reflexivity.
Qed.

Lemma world_reachable_deer {C : Canvas2D} w :
  worldReachable w -> deer_invariant (app w).
Proof.
  induction 1 as [|ev w w' R IH H]; [reflexivity|].
  apply (world_step_deer ev w w'); try assumption.
  - apply world_reachable_invariant. exact R.
  - intros k s Hs.
    destruct (world_reachable_invariant w R) as (_ & _ & _ & I4 & I5).
    assert (G : gameState (app w) <> INTRO).
    { intro G. rewrite (I4 G) in Hs. discriminate. }
    destruct (I5 G) as (level & s0 & L & E). rewrite Hs in E.
    inversion E; subst.
    destruct (level_geometry (app w) level L) as (cfg & Ecfg). eauto.
Qed.

(** X20.  The deer plays an instrument exactly during the success
    animation: in every reachable state it is idle unless the game is in
    the success animation, where it plays the guitar on the first level
    and the accordion on the second. *)
Theorem deer_plays_during_animation {C : Canvas2D} (w : World) :
  worldReachable w ->
  (deerState (app w) = IDLE <-> gameState (app w) <> SUCCESS_ANIMATION) /\
  (gameState (app w) = SUCCESS_ANIMATION ->
   deerState (app w)
   = if (currentLevelIdx (app w) =? 0)%nat then GUITAR else ACCORDION).
Proof.
  intro R. pose proof (world_reachable_deer w R) as D.
  unfold deer_invariant in D.
  destruct (gameState (app w)) eqn:G.
  - split; [split; [discriminate|intros _; exact D]|discriminate].
  - split; [split; [discriminate|intros _; exact D]|discriminate].
  - split; [|intros _; exact D].
    rewrite D. split; [|congruence].
    destruct (currentLevelIdx (app w) =? 0)%nat; discriminate.
  - split; [split; [discriminate|intros _; exact D]|discriminate].
Qed.

Lemma deer_plays_during_animation_witness :
  worldReachable
    (worldAfter ([StartClick]
                 ++ onCard (InitCanvas :: stroke1_events ++ stroke2_events
                                       ++ stroke3_events))) /\
  gameState
    (app (worldAfter ([StartClick]
                      ++ onCard (InitCanvas :: stroke1_events ++ stroke2_events
                                            ++ stroke3_events))))
  = SUCCESS_ANIMATION /\
  deerState
    (app (worldAfter ([StartClick]
                      ++ onCard (InitCanvas :: stroke1_events ++ stroke2_events
                                            ++ stroke3_events))))
  = GUITAR.
Proof.
  split; [apply worldAfter_reachable|].
  split; [vm_compute; reflexivity|].
  refine (eq_trans
            (proj2 (deer_plays_during_animation _ (worldAfter_reachable _)) _) _);
    vm_compute; reflexivity.
Defined.

(** ** The gesture loop *)

Lemma dispatch_stream f cx cy isPinching was ev was' :
  dispatchPointerEvent f cx cy isPinching was = (ev, was') ->
  forall rest, streamOk was' rest = true ->
  streamOk was (match ev with Some e => e :: rest | None => rest end) = true.
Proof.
  unfold dispatchPointerEvent.
  destruct (elementFromPoint f cx cy); cbn [negb].
  - destruct isPinching, was; cbn; intro H; inversion H; subst; intros rest R;
      cbn; rewrite R; reflexivity.
  - intro H; inversion H; subst. auto.
Qed.

Lemma predict_stream f g g' ev :
  predict f g = (g', ev) ->
  forall rest, streamOk (wasPinching g') rest = true ->
  streamOk (wasPinching g)
           (match ev with Some e => e :: rest | None => rest end) = true.
Proof.
  unfold predict. destruct (landmarks f) as [[indexTip thumbTip]|].
  - destruct (dispatchPointerEvent f _ _ _ (wasPinching g)) as [e w] eqn:D.
    intro H; inversion H; subst. cbn [wasPinching].
    apply (dispatch_stream _ _ _ _ _ _ _ D).
  - intro H; inversion H; subst. cbn [wasPinching]. auto.
Qed.

(** X9.  Whatever the frames, the synthetic events of the gesture loop form
    a well-formed pointer stream: pointer-downs and pointer-ups alternate,
    starting with a down, and a move reports the button pressed exactly
    between a down and the next up.  The ref [wasPinching] always holds the
    pressed state of that stream. *)
Theorem gesture_stream_well_formed (fs : list Frame) (g : Gesture) :
  streamOk (wasPinching g) (snd (predictAll fs g)) = true /\
  streamOk false (snd (predictAll fs Gesture_init)) = true.
Proof.
  assert (H : forall fs g, streamOk (wasPinching g) (snd (predictAll fs g)) = true).
  { clear. induction fs as [|f fs IH]; intro g; [reflexivity|].
    cbn [predictAll].
    destruct (predict f g) as [g1 ev] eqn:P.
    specialize (IH g1).
    destruct (predictAll fs g1) as [g2 evs]. cbn [snd] in *.
    apply (predict_stream f g g1 ev P). exact IH. }
  split; [apply H|apply (H fs Gesture_init)].
Qed.

Lemma detectPinch_band was indexTip thumbTip :
  PINCH_START_THRESHOLD * PINCH_START_THRESHOLD
  <= hypot2 (x indexTip - x thumbTip) (y indexTip - y thumbTip) ->
  hypot2 (x indexTip - x thumbTip) (y indexTip - y thumbTip)
  <= PINCH_STOP_THRESHOLD * PINCH_STOP_THRESHOLD ->
  detectPinch was indexTip thumbTip = was.
Proof.
  intros Hlo Hhi. unfold detectPinch. destruct was.
  - assert (E : hypot_gt (x indexTip - x thumbTip) (y indexTip - y thumbTip)
                         PINCH_STOP_THRESHOLD = false).
    { unfold hypot_gt. apply orb_false_iff. split.
      - reflexivity.
      - apply Qlt_bool_false_iff. exact Hhi. }
    rewrite E. reflexivity.
  - assert (E : hypot_lt (x indexTip - x thumbTip) (y indexTip - y thumbTip)
                         PINCH_START_THRESHOLD = false).
    { apply hypot_lt_false_iff. right. exact Hlo. }
    rewrite E. reflexivity.
Qed.

Lemma predict_band f g :
  inBand f ->
  wasPinching (fst (predict f g)) = wasPinching g /\
  match snd (predict f g) with
  | Some e => ev_type e = pointermove
  | None => True
  end.
Proof.
  unfold inBand, predict.
  destruct (landmarks f) as [[indexTip thumbTip]|]; [|cbn; auto].
  intros [Hlo Hhi].
  rewrite (detectPinch_band (wasPinching g) indexTip thumbTip Hlo Hhi).
  unfold dispatchPointerEvent.
  destruct (elementFromPoint f _ _); cbn [negb]; [|cbn; auto].
  destruct (wasPinching g); cbn; auto.
Qed.

(** X10.  While the finger distance stays within the hysteresis band, from
    0.05 to 0.09, or no hand is seen, the pinch state does not change:
    over such frames the loop dispatches moves only, no pointer-down and no
    pointer-up, whether it started pinching or not. *)
Theorem pinch_holds_within_band (fs : list Frame) (g : Gesture) :
  Forall inBand fs ->
  wasPinching (fst (predictAll fs g)) = wasPinching g /\
  Forall (fun e => ev_type e = pointermove) (snd (predictAll fs g)).
Proof.
  intro H. revert g. induction H as [|f fs Hf Hfs IH]; intro g.
  - cbn. auto.
  - cbn [predictAll].
    destruct (predict_band f g Hf) as [Hw He].
    destruct (predict f g) as [g1 ev]. cbn [fst snd] in Hw, He.
    specialize (IH g1).
    destruct (predictAll fs g1) as [g2 evs]. cbn [fst snd] in *.
    destruct IH as [IHw IHe].
    split; [congruence|].
    destruct ev as [e|]; [constructor; assumption|assumption].
Qed.

(** X11.  The cursor has a dead zone: when the raw position is less than
    25/3 pixels from the cursor, the cursor stays where it is; otherwise it
    moves 12% of the way towards the raw position, which is a step of at
    least one pixel and leaves 88% of the distance. *)
Theorem cursor_dead_zone (last raw : Point) :
  let d2 := hypot2 (x raw - x last) (y raw - y last) in
  let final := smoothCursor last raw in
  (d2 < (25 # 3) * (25 # 3) -> final = last) /\
  ((25 # 3) * (25 # 3) <= d2 ->
   x final == x last + (12 # 100) * (x raw - x last) /\
   y final == y last + (12 # 100) * (y raw - y last) /\
   1 <= hypot2 (x final - x last) (y final - y last) /\
   hypot2 (x raw - x final) (y raw - y final) == (88 # 100) * (88 # 100) * d2).
Proof.
  intros d2 final. unfold final, smoothCursor. cbv zeta.
  set (dx := x raw - x last) in *. set (dy := y raw - y last) in *.
  assert (E : hypot2 (x last + dx * SMOOTHING_FACTOR - x last)
                     (y last + dy * SMOOTHING_FACTOR - y last)
              == (144 # 10000) * d2).
  { unfold d2, hypot2, SMOOTHING_FACTOR. ring. }
  split.
  - intro Hd.
    assert (S : hypot_lt (x last + dx * SMOOTHING_FACTOR - x last)
                         (y last + dy * SMOOTHING_FACTOR - y last) 1 = true).
    { apply hypot_lt_iff. split; [reflexivity|]. rewrite E. lra. }
    rewrite S. destruct last; reflexivity.
  - intro Hd.
    assert (S : hypot_lt (x last + dx * SMOOTHING_FACTOR - x last)
                         (y last + dy * SMOOTHING_FACTOR - y last) 1 = false).
    { apply hypot_lt_false_iff. right. rewrite E. lra. }
    rewrite S. cbn [x y].
    split; [unfold SMOOTHING_FACTOR; ring|].
    split; [unfold SMOOTHING_FACTOR; ring|].
    split; [rewrite E; lra|].
    unfold d2, hypot2, dx, dy, SMOOTHING_FACTOR. ring.
Qed.

Lemma cursor_dead_zone_witness :
  smoothCursor {| x := 100; y := 100 |} {| x := 105; y := 104 |}
  = {| x := 100; y := 100 |}.
Proof.
  apply (proj1 (cursor_dead_zone {| x := 100; y := 100 |} {| x := 105; y := 104 |})).
  vm_compute. reflexivity.
Defined.

Lemma smoothCursor_between (last raw : Point) (w h : Q) :
  inWindow w h last -> inWindow w h raw ->
  inWindow w h (smoothCursor last raw).
Proof.
  intros [[Lx0 Lx1] [Ly0 Ly1]] [[Rx0 Rx1] [Ry0 Ry1]].
  unfold smoothCursor, inWindow. cbv zeta.
  destruct (hypot_lt _ _ 1); cbn [x y]; unfold SMOOTHING_FACTOR;
    repeat split; lra.
Qed.

Lemma rawCursor_inWindow f indexTip :
  0 <= innerWidth f -> 0 <= innerHeight f ->
  0 <= x indexTip <= 1 -> 0 <= y indexTip <= 1 ->
  inWindow (innerWidth f) (innerHeight f) (rawCursor f indexTip).
Proof.
  intros Hw Hh [Hx0 Hx1] [Hy0 Hy1]. unfold inWindow, rawCursor; cbn [x y].
  repeat split; nra.
Qed.

(** X12.  The cursor never leaves the window: if it is inside a window of
    width [w] and height [h], then after any frames of that window size
    whose finger tip is inside the camera image it is still inside, and so
    is the position of every dispatched event. *)
Theorem cursor_stays_in_window (w h : Q) (fs : list Frame) (g : Gesture) :
  0 <= w -> 0 <= h ->
  inWindow w h (lastCursorPos g) ->
  Forall (fun f => innerWidth f = w /\ innerHeight f = h /\ tipInImage f) fs ->
  inWindow w h (lastCursorPos (fst (predictAll fs g))) /\
  Forall (fun e => inWindow w h {| x := ev_clientX e; y := ev_clientY e |})
         (snd (predictAll fs g)).
Proof.
  intros Hw Hh Hg H. revert g Hg.
  induction H as [|f fs (Ew & Eh & Ht) Hfs IH]; intros g Hg.
  - cbn. auto.
  - cbn [predictAll].
    assert (P : inWindow w h (lastCursorPos (fst (predict f g))) /\
                match snd (predict f g) with
                | Some e => inWindow w h {| x := ev_clientX e; y := ev_clientY e |}
                | None => True
                end).
    { unfold predict, tipInImage in *.
      destruct (landmarks f) as [[indexTip thumbTip]|]; [|cbn; auto].
      destruct Ht as [Hx Hy].
      assert (F : inWindow w h (smoothCursor (lastCursorPos g) (rawCursor f indexTip))).
      { apply smoothCursor_between; [exact Hg|].
        rewrite <- Ew, <- Eh. apply rawCursor_inWindow; congruence. }
      unfold dispatchPointerEvent.
      destruct (elementFromPoint f _ _); cbn [negb fst snd lastCursorPos];
        [|auto].
      split; [exact F|].
      destruct (detectPinch _ _ _), (wasPinching g); cbn; exact F. }
    destruct (predict f g) as [g1 ev]. cbn [fst snd] in P.
    destruct P as [P1 P2].
    specialize (IH g1 P1).
    destruct (predictAll fs g1) as [g2 evs]. cbn [fst snd] in *.
    destruct IH as [IH1 IH2]. split; [exact IH1|].
    destruct ev as [e|]; [constructor; assumption|assumption].
Qed.

Lemma pinch_holds_within_band_witness :
  Forall inBand [frame_relaxed; frame_relaxed] /\
  wasPinching (fst (predictAll [frame_relaxed; frame_relaxed] Gesture_init)) = false /\
  Forall (fun e => ev_type e = pointermove)
         (snd (predictAll [frame_relaxed; frame_relaxed] Gesture_init)).
Proof.
  assert (B : inBand frame_relaxed).
  { unfold inBand; simpl. split; vm_compute; discriminate. }
  assert (F : Forall inBand [frame_relaxed; frame_relaxed]).
  { apply Forall_cons; [exact B|]. apply Forall_cons; [exact B|]. apply Forall_nil. }
  split; [exact F|].
  apply (pinch_holds_within_band [frame_relaxed; frame_relaxed] Gesture_init F).
Defined.

Lemma cursor_stays_in_window_witness :
  inWindow 800 600 (lastCursorPos Gesture_init) /\
  inWindow 800 600
           (lastCursorPos (fst (predictAll [frame_relaxed; frame_relaxed]
                                           Gesture_init))).
Proof.
  assert (I : inWindow 800 600 (lastCursorPos Gesture_init)).
  { unfold inWindow; simpl. split; split; discriminate. }
  split; [exact I|].
  apply (cursor_stays_in_window 800 600 [frame_relaxed; frame_relaxed] Gesture_init).
  - discriminate.
  - discriminate.
  - exact I.
  - assert (T : innerWidth frame_relaxed = 800 /\ innerHeight frame_relaxed = 600 /\
                tipInImage frame_relaxed).
    { split; [reflexivity|]. split; [reflexivity|].
      unfold tipInImage; simpl. split; split; discriminate. }
    apply Forall_cons; [exact T|]. apply Forall_cons; [exact T|]. apply Forall_nil.
Defined.

(** ** Audio decoding *)

Lemma byte_range (b : byte) : (0 <= Z.of_N (Byte.to_N b) <= 255)%Z.
Proof. pose proof (Byte.to_N_bounded b). lia. Qed.

Lemma int16_of_bytes_range (lo hi : byte) :
  (-32768 <= int16_of_bytes lo hi <= 32767)%Z.
Proof.
  unfold int16_of_bytes.
  pose proof (byte_range lo). pose proof (byte_range hi).
  destruct (Z.ltb_spec (Z.of_N (Byte.to_N lo) + 256 * Z.of_N (Byte.to_N hi)) 32768);
    lia.
Qed.

Lemma int16_view_range (data : list byte) :
  Forall (fun z => (-32768 <= z <= 32767)%Z) (int16_view data).
Proof.
  assert (H : forall n data, (List.length data <= n)%nat ->
              Forall (fun z => (-32768 <= z <= 32767)%Z) (int16_view data)).
  { induction n as [|n IH]; intros d Hd.
    - destruct d; [constructor|simpl in Hd; lia].
    - destruct d as [|lo [|hi rest]]; try constructor.
      + apply int16_of_bytes_range.
      + apply IH. simpl in Hd. lia. }
  apply (H (List.length data)). lia.
Qed.

Lemma int16_view_length (data : list byte) :
  List.length (int16_view data) = (List.length data / 2)%nat.
Proof.
  assert (H : forall n data, (List.length data <= n)%nat ->
              List.length (int16_view data) = (List.length data / 2)%nat).
  { induction n as [|n IH]; intros d Hd.
    - destruct d; [reflexivity|simpl in Hd; lia].
    - destruct d as [|lo [|hi rest]]; try reflexivity.
      cbn [int16_view List.length]. rewrite IH by (simpl in Hd; lia).
      change (S (S (List.length rest))) with (1 * 2 + List.length rest)%nat.
      rewrite Nat.div_add_l by lia. lia. }
  apply (H (List.length data)). lia.
Qed.

Lemma safeLength_view (data : list byte) :
  List.length (int16_view (firstn (List.length data - List.length data mod 2) data))
  = (List.length data / 2)%nat.
Proof.
  rewrite int16_view_length, length_firstn.
  pose proof (Nat.div_mod_eq (List.length data) 2).
  pose proof (Nat.mod_upper_bound (List.length data) 2).
  rewrite Nat.min_l by lia.
  replace (List.length data - List.length data mod 2)%nat
    with (List.length data / 2 * 2)%nat by lia.
  apply Nat.div_mul. lia.
Qed.

Lemma createBuffer_cases (maxChannels numberOfChannels length : nat) :
  match createBuffer maxChannels numberOfChannels length with
  | Some buffer =>
      (1 <= numberOfChannels <= maxChannels)%nat /\ (1 <= length)%nat /\
      List.length buffer = numberOfChannels
  | None =>
      numberOfChannels = 0%nat \/ (maxChannels < numberOfChannels)%nat \/
      length = 0%nat
  end.
Proof.
  unfold createBuffer.
  destruct (Nat.eqb_spec numberOfChannels 0) as [E|E]; cbn [orb]; [auto|].
  destruct (Nat.ltb_spec maxChannels numberOfChannels) as [L|L]; cbn [orb]; [auto|].
  destruct (Nat.eqb_spec length 0) as [Z|Z]; [auto|].
  rewrite repeat_length. lia.
Qed.

(** X13.  Decoding raises exactly when [numChannels] is zero or above the
    limit of the implementation, or when the data holds fewer 16-bit
    samples than channels.  Otherwise the decoded audio has one list per
    channel, each with [floor(floor(bytes / 2) / channels)] frames, and
    every sample is at least -1 and below 1. *)
Theorem decodeAudioData_shape (maxChannels : nat) (data : list byte)
        (numChannels : nat) :
  match decodeAudioData maxChannels data numChannels with
  | Some buffer =>
      (1 <= numChannels <= maxChannels)%nat /\
      (numChannels <= List.length data / 2)%nat /\
      List.length buffer = numChannels /\
      Forall (fun channelData =>
                List.length channelData
                = (List.length data / 2 / numChannels)%nat /\
                Forall (fun v => -1 <= v /\ v < 1) channelData)
             buffer
  | None =>
      numChannels = 0%nat \/ (maxChannels < numChannels)%nat \/
      (List.length data / 2 < numChannels)%nat
  end.
Proof.
  unfold decodeAudioData. cbv zeta.
  set (dataInt16 := int16_view _).
  assert (Hlen : List.length dataInt16 = (List.length data / 2)%nat)
    by apply safeLength_view.
  assert (Hr : Forall (fun z => (-32768 <= z <= 32767)%Z) dataInt16)
    by apply int16_view_range.
  pose proof (createBuffer_cases maxChannels numChannels
                (List.length dataInt16 / numChannels)) as Hc.
  destruct (createBuffer maxChannels numChannels
              (List.length dataInt16 / numChannels)) as [buffer|].
  - destruct Hc as (Hn & Hf & _). rewrite Hlen in *.
    split; [exact Hn|].
    split.
    { destruct (Nat.lt_ge_cases (List.length data / 2) numChannels) as [L|L];
        [|exact L].
      rewrite (Nat.div_small _ _ L) in Hf. lia. }
    split; [rewrite length_map, length_seq; reflexivity|].
    apply Forall_forall. intros ch Hch.
    apply in_map_iff in Hch. destruct Hch as (c & <- & _).
    split; [rewrite length_map, length_seq; reflexivity|].
    apply Forall_forall. intros v Hv.
    apply in_map_iff in Hv. destruct Hv as (i & <- & _).
    assert (Hnth : (-32768 <= nth (i * numChannels + c) dataInt16 0 <= 32767)%Z).
    { destruct (Nat.lt_ge_cases (i * numChannels + c) (List.length dataInt16)) as [L|L].
      - rewrite Forall_forall in Hr. apply Hr. apply nth_In. exact L.
      - rewrite nth_overflow by exact L. lia. }
    destruct Hnth as [Hlo Hhi].
    rewrite Zle_Qle in Hlo.
    assert (Hhi' : (nth (i * numChannels + c) dataInt16 0 < 32768)%Z) by lia.
    rewrite Zlt_Qlt in Hhi'.
    split.
    + apply Qle_shift_div_l; [reflexivity|].
      change (-1 * 32768) with (inject_Z (-32768)). exact Hlo.
    + apply Qlt_shift_div_r; [reflexivity|].
      change (1 * 32768) with (inject_Z 32768). exact Hhi'.
  - rewrite Hlen in Hc. destruct Hc as [Hc|[Hc|Hc]]; [auto|auto|].
    destruct (Nat.eq_dec numChannels 0) as [Z|Z]; [auto|].
    right. right. apply Nat.div_small_iff in Hc; [exact Hc|exact Z].
Qed.

Lemma byte_of_Z_value (z : Z) : Z.of_N (Byte.to_N (byte_of_Z z)) = (z mod 256)%Z.
Proof.
  unfold byte_of_Z.
  pose proof (Z.mod_pos_bound z 256 ltac:(lia)) as Hm.
  destruct (Byte.of_N (Z.to_N (z mod 256))) as [b|] eqn:E.
  - apply Byte.to_of_N in E. rewrite E. lia.
  - apply Byte.of_N_None_iff in E. lia.
Qed.

Lemma int16_encode_decode (z : Z) :
  (-32768 <= z <= 32767)%Z ->
  int16_of_bytes (byte_of_Z (z mod 65536)) (byte_of_Z ((z mod 65536) / 256)) = z.
Proof.
  intro Hz. unfold int16_of_bytes. rewrite !byte_of_Z_value.
  pose proof (Z.mod_pos_bound z 65536 ltac:(lia)) as Hm.
  set (u := (z mod 65536)%Z) in *.
  assert (Hhi : ((u / 256) mod 256 = u / 256)%Z).
  { apply Z.mod_small. split; [apply Z.div_pos; lia|].
    apply Z.div_lt_upper_bound; lia. }
  rewrite Hhi.
  assert (Eu : (u mod 256 + 256 * (u / 256) = u)%Z).
  { pose proof (Z.div_mod u 256 ltac:(lia)). lia. }
  rewrite Eu.
  destruct (Z.ltb_spec u 32768) as [L|L].
  - destruct (Z_lt_le_dec z 0) as [N|N].
    + assert (u = z + 65536)%Z; [|lia].
      unfold u. symmetry. apply Z.mod_unique with (q := (-1)%Z); lia.
    + unfold u. apply Z.mod_small. lia.
  - destruct (Z_lt_le_dec z 0) as [N|N].
    + assert (u = z + 65536)%Z; [|lia].
      unfold u. symmetry. apply Z.mod_unique with (q := (-1)%Z); lia.
    + assert (u = z) by (unfold u; apply Z.mod_small; lia). lia.
Qed.

Lemma int16_view_encode (samples : list Z) :
  Forall (fun z => (-32768 <= z <= 32767)%Z) samples ->
  int16_view (encodePCM16 samples) = samples.
Proof.
  induction 1 as [|z samples Hz _ IH]; [reflexivity|].
  cbn [encodePCM16 flat_map List.app int16_view].
  fold (encodePCM16 samples). rewrite IH, (int16_encode_decode z Hz). reflexivity.
Qed.

Lemma encodePCM16_length (samples : list Z) :
  List.length (encodePCM16 samples) = (2 * List.length samples)%nat.
Proof.
  induction samples as [|z samples IH]; [reflexivity|].
  cbn [encodePCM16 flat_map List.app List.length]. fold (encodePCM16 samples).
  rewrite IH. lia.
Qed.

Lemma map_nth_seq {A B : Type} (g : A -> B) (d : A) (l : list A) :
  map (fun i => g (nth i l d)) (seq 0 (List.length l)) = map g l.
Proof.
  induction l as [|a l IH]; [reflexivity|].
  cbn [List.length seq map nth]. f_equal.
  rewrite <- seq_shift, map_map. exact IH.
Qed.

(** X14.  Decoding, as one channel, the raw 16-bit little-endian PCM
    encoding of a non-empty list of samples gives each sample divided by
    32768, in order; a stray byte after the last sample is ignored. *)
Theorem decodeAudioData_of_PCM16 (maxChannels : nat) (samples : list Z)
        (stray : list byte) :
  (1 <= maxChannels)%nat ->
  samples <> [] ->
  Forall (fun z => (-32768 <= z <= 32767)%Z) samples ->
  (List.length stray <= 1)%nat ->
  decodeAudioData maxChannels (encodePCM16 samples ++ stray) 1
  = Some [map (fun z => inject_Z z / 32768) samples].
Proof.
  intros Hmax Hne Hs Hstray. unfold decodeAudioData. cbv zeta.
  assert (Ef : firstn (List.length (encodePCM16 samples ++ stray)
                       - List.length (encodePCM16 samples ++ stray) mod 2)
                      (encodePCM16 samples ++ stray)
               = encodePCM16 samples).
  { rewrite length_app, encodePCM16_length.
    assert (Em : ((2 * List.length samples + List.length stray) mod 2
                  = List.length stray)%nat).
    { rewrite Nat.add_comm, Nat.mul_comm, Nat.Div0.mod_add.
      apply Nat.mod_small. lia. }
    rewrite Em.
    replace (2 * List.length samples + List.length stray - List.length stray)%nat
      with (List.length (encodePCM16 samples) + 0)%nat
      by (rewrite encodePCM16_length; lia).
    rewrite firstn_app_2. cbn [firstn]. apply app_nil_r. }
  rewrite Ef, (int16_view_encode samples Hs), Nat.div_1_r.
  unfold createBuffer.
  destruct (Nat.ltb_spec maxChannels 1) as [L|_]; [lia|].
  destruct (Nat.eqb_spec (List.length samples) 0) as [Z|_].
  { destruct samples; [congruence|discriminate]. }
  cbn [Nat.eqb orb repeat List.length seq map]. f_equal. f_equal.
  rewrite <- (map_nth_seq (fun z => inject_Z z / 32768) 0%Z samples).
  apply map_ext. intro i. rewrite Nat.mul_1_r, Nat.add_0_r. reflexivity.
Qed.

Lemma decodeAudioData_of_PCM16_witness :
  decodeAudioData 32 (encodePCM16 [0; -32768; 32767; 1]%Z ++ ["000"%byte]) 1
  = Some [map (fun z => inject_Z z / 32768) [0; -32768; 32767; 1]%Z].
Proof.
  apply decodeAudioData_of_PCM16.
  - lia.
  - discriminate.
  - repeat constructor; lia.
  - simpl. lia.
Defined.
